(** * KVOpt: a shallow embedding of the cache store, dispatcher, sweep and
    persistence codec of [src/src/main.rs] and [src/src/buffer.rs], with the
    input loop and expiry scan of [src/src/tasks.rs], the byte-line codec of
    [src/src/utils.rs] and the log writer of [src/src/logger.rs].

    Modelling choices:
    - bytes are [Byte.byte]; keys ([u8;63]), raw values ([u8;64]) and frames
      ([u8;128]) are lists of bytes sliced exactly as the Rust code slices them;
    - [DateTime<Utc>] is an integer number of seconds ([Z]); chrono's
      representable range is [0 .. max_timestamp] for the non-negative
      timestamps the code can build, [DateTime::from_timestamp] fails above it
      and [DateTime + TimeDelta] panics above it;
    - the two maps ([vals]: hashbrown::HashMap behind a RwLock, [entries]:
      DashMap) are stdpp [gmap]s; the code is modelled sequentially;
    - [invalidate_cache] only enqueues the sweep job on the thread pool: the
      dispatcher records the scheduled job ([pending_sweeps]) and the job body
      is [sweep];
    - a panic is [None] in the option results;
    - the debug log calls ([log_debug], [write_log]) made along the way are
      taken to succeed, and only their effect on the result is kept: the
      log writer itself is modelled on its own ([logger_write_log]);
    - the clock readings of [tasks::invalidate_cache] are a function of the
      position in the map's iteration order ([map_to_list]). *)

From Stdlib Require Import ZArith List Lia.
From Stdlib Require Strings.Byte.
From stdpp Require Import base countable gmap list fin_maps.
Import ListNotations.
Open Scope Z_scope.

(** ** Bytes *)

#[global] Instance byte_eq_dec : EqDecision Byte.byte := Byte.byte_eq_dec.

#[global] Program Instance byte_countable : Countable Byte.byte :=
  inj_countable Byte.to_nat Byte.of_nat _.
Next Obligation. intros b. apply Byte.of_to_nat. Qed.

Definition byteZ (b : Byte.byte) : Z := Z.of_nat (Byte.to_nat b).

(** [&s[i..j]] on a slice. *)
Definition slice {A} (i j : nat) (l : list A) : list A :=
  firstn (j - i) (skipn i l).

(** Big-endian unsigned decoding ([u16::from_be_bytes], and
    [i64::from_be_bytes] of 8 bytes whose first two are zero). *)
Definition be_int (bs : list Byte.byte) : Z :=
  fold_left (fun acc b => acc * 256 + byteZ b) bs 0.

(** [key.iter().all(|&b| b == 0)] *)
Definition is_empty_key (k : list Byte.byte) : bool :=
  forallb (fun b => Byte.eqb b Byte.x00) k.

Abbreviation key := (list Byte.byte).
Abbreviation raw := (list Byte.byte).

(** ** Time (chrono) *)

(** [DateTime::<Utc>::MAX_UTC.timestamp()]: 262142-12-31T23:59:59Z. *)
Definition max_timestamp : Z := 8210266876799.

(** [DateTime::<Utc>::from_timestamp(ts, 0)] for [ts >= 0]. *)
Definition from_timestamp (ts : Z) : option Z :=
  if (0 <=? ts) && (ts <=? max_timestamp) then Some ts else None.

(** [t + TimeDelta::try_seconds(d).unwrap_or_default()]; [None] is the panic
    "`DateTime + TimeDelta` overflowed". *)
Definition add_seconds (t d : Z) : option Z :=
  if t + d <=? max_timestamp then Some (t + d) else None.

(** ** The raw 64-byte value *)

(** [value[56..62]] as the low 6 bytes of an [i64]. *)
Definition raw_timestamp (v : raw) : Z := be_int (slice 56 62 v).

(** [u16::from_be_bytes([value[62], value[63]])] *)
Definition raw_offset (v : raw) : Z := be_int (slice 62 64 v).

(** [CacheEntry] *)
Record CacheEntry := mkEntry {
  value : list Byte.byte;        (* [u8; 56] *)
  created_at : Z;
  expires_at : option Z
}.

(** ** The cache *)

Record Cache := mkCache {
  vals : gmap key raw;
  entries : gmap key CacheEntry;
  save_flag : bool;
  ops_since_invalidation : nat;
  invalidation_threshold : nat;
  pending_sweeps : nat;          (* jobs handed to [thread_pool.execute] *)
  cache_file : list Byte.byte    (* contents of data/cache.json *)
}.

Definition DEFAULT_INVALIDATION_THRESHOLD : nat := 100.

(** [Cache::new] (with no cache file yet). *)
Definition cache_new : Cache := {|
  vals := ∅; entries := ∅; save_flag := false;
  ops_since_invalidation := 0;
  invalidation_threshold := DEFAULT_INVALIDATION_THRESHOLD;
  pending_sweeps := 0; cache_file := [] |}.

Definition set_vals_entries (vs : gmap key raw) (es : gmap key CacheEntry)
    (c : Cache) : Cache := {|
  vals := vs; entries := es; save_flag := save_flag c;
  ops_since_invalidation := ops_since_invalidation c;
  invalidation_threshold := invalidation_threshold c;
  pending_sweeps := pending_sweeps c; cache_file := cache_file c |}.

Definition set_save_flag (b : bool) (c : Cache) : Cache := {|
  vals := vals c; entries := entries c; save_flag := b;
  ops_since_invalidation := ops_since_invalidation c;
  invalidation_threshold := invalidation_threshold c;
  pending_sweeps := pending_sweeps c; cache_file := cache_file c |}.

Definition set_file (f : list Byte.byte) (c : Cache) : Cache := {|
  vals := vals c; entries := entries c; save_flag := save_flag c;
  ops_since_invalidation := ops_since_invalidation c;
  invalidation_threshold := invalidation_threshold c;
  pending_sweeps := pending_sweeps c; cache_file := f |}.

Definition set_counter (ops pend : nat) (c : Cache) : Cache := {|
  vals := vals c; entries := entries c; save_flag := save_flag c;
  ops_since_invalidation := ops;
  invalidation_threshold := invalidation_threshold c;
  pending_sweeps := pend; cache_file := cache_file c |}.

(** ** Invalidation ([Cache::invalidate_cache], the job body) *)

(** [if let Some(expires_at) = cache_entry.expires_at { if expires_at <= now ..}] *)
Definition entry_expired (now : Z) (e : CacheEntry) : bool :=
  match expires_at e with
  | Some x => x <=? now
  | None => false
  end.

(** The scan: [keys_to_remove]. *)
Definition keys_to_remove (now : Z) (es : gmap key CacheEntry) : list key :=
  map fst (filter (fun ke => entry_expired now ke.2 = true) (map_to_list es)).

(** [for key in keys_to_remove { entries.remove(&key); vals.write().remove(&key); }] *)
Definition remove_keys (ks : list key) (c : Cache) : Cache :=
  fold_left (fun c k => set_vals_entries (delete k (vals c)) (delete k (entries c)) c)
    ks c.

(** One run of the sweep job at time [now]; returns the number of keys it
    removed and the new cache. *)
Definition sweep (now : Z) (c : Cache) : nat * Cache :=
  let ks := keys_to_remove now (entries c) in
  (length ks, remove_keys ks c).

(** ** Persistence codec ([Cache::clean_up] and [Cache::load]) *)

(** The creation time decoded from a raw value:
    [DateTime::<Utc>::from_timestamp(timestamp, 0).unwrap_or_else(|| Utc::now())]. *)
Definition decode_created (now : Z) (v : raw) : Z :=
  match from_timestamp (raw_timestamp v) with
  | Some t => t
  | None => now
  end.

(** The expiry decoded from a raw value: [None] is a panic, [Some None] is
    "never expires" (offset 0), [Some (Some x)] expires at [x]. *)
Definition decode_expires (now : Z) (v : raw) : option (option Z) :=
  if 0 <? raw_offset v then
    match add_seconds (decode_created now v) (raw_offset v) with
    | Some x => Some (Some x)
    | None => None
    end
  else Some None.

(** The body of the loop in [clean_up] for one [(key, value)]: [None] is a
    panic, [Some false] a [continue], [Some true] appends [key ++ value]. *)
Definition save_keep (now : Z) (k : key) (v : raw) : option bool :=
  if is_empty_key k then Some false
  else if 0 <? raw_offset v then
    match add_seconds (decode_created now v) (raw_offset v) with
    | Some x => Some (negb (x <=? now))
    | None => None
    end
  else Some true.

(** The buffer built by [clean_up] from [kv.iter()]. *)
Fixpoint serialize (now : Z) (kvs : list (key * raw)) : option (list Byte.byte) :=
  match kvs with
  | [] => Some []
  | (k, v) :: r =>
      match save_keep now k v with
      | None => None
      | Some false => serialize now r
      | Some true =>
          match serialize now r with
          | Some b => Some (k ++ v ++ b)
          | None => None
          end
      end
  end.

(** Outcomes of the file system calls of one save: [File::create] succeeds,
    [file.write(&buffer)] returns [Ok n] ([Some n]) or an error ([None]),
    [file.flush()] succeeds. *)
Record io_env := mkIo {
  create_ok : bool;
  write_res : option nat;
  flush_ok : bool
}.

(** [Cache::clean_up]: [None] is a panic; [Some (true, c)] is [Ok(())];
    [Some (false, c)] is an [Err] returned by one of the [?]. *)
Definition clean_up (now : Z) (io : io_env) (c : Cache) : option (bool * Cache) :=
  if negb (create_ok io) then Some (false, c)
  else
    let c1 := set_file [] c in         (* File::create truncates *)
    match serialize now (map_to_list (vals c)) with
    | None => None
    | Some buffer =>
        match write_res io with
        | None => Some (false, c1)
        | Some n =>
            let c2 := set_file (firstn n buffer) c1 in
            if flush_ok io then Some (true, set_save_flag false c2)
            else Some (false, c2)
        end
    end.

(** [buf.chunks_exact(127)] *)
Fixpoint chunks_fuel (fuel : nat) (l : list Byte.byte) : list (list Byte.byte) :=
  match fuel with
  | O => []
  | S f =>
      if Nat.ltb (length l) 127 then []
      else firstn 127 l :: chunks_fuel f (skipn 127 l)
  end.

Definition chunks_exact (l : list Byte.byte) : list (list Byte.byte) :=
  chunks_fuel (length l) l.

(** The body of the loop in [load] for one chunk. *)
Definition load_chunk (now : Z) (acc : gmap key raw * gmap key CacheEntry)
    (chunk : list Byte.byte) : option (gmap key raw * gmap key CacheEntry) :=
  let k := slice 0 63 chunk in
  let v := slice 63 127 chunk in
  if is_empty_key k then Some acc
  else
    match decode_expires now v with
    | None => None
    | Some exp =>
        let entry := mkEntry (slice 0 56 v) (decode_created now v) exp in
        match exp with
        | Some x => if x <=? now then Some acc
                    else Some (<[k:=v]> acc.1, <[k:=entry]> acc.2)
        | None => Some (<[k:=v]> acc.1, <[k:=entry]> acc.2)
        end
    end.

Fixpoint load_chunks (now : Z) (acc : gmap key raw * gmap key CacheEntry)
    (cs : list (list Byte.byte)) : option (gmap key raw * gmap key CacheEntry) :=
  match cs with
  | [] => Some acc
  | ch :: r =>
      match load_chunk now acc ch with
      | Some acc' => load_chunks now acc' r
      | None => None
      end
  end.

(** [Cache::load]: reads [cache_file]; a missing or empty file leaves the
    cache as it is; otherwise both maps are replaced by the decoded records
    and the initial [invalidate_cache()] job is scheduled. *)
Definition load (now : Z) (c : Cache) : option Cache :=
  match cache_file c with
  | [] => Some c
  | buf =>
      match load_chunks now (∅, ∅) (chunks_exact buf) with
      | None => None
      | Some (vs, es) =>
          Some (set_counter (ops_since_invalidation c) (S (pending_sweeps c))
                  (set_vals_entries vs es c))
      end
  end.

(** ** The dispatcher ([BufferAccess::handle_in]) *)

Definition b_G : Byte.byte := Byte.x47.
Definition b_I : Byte.byte := Byte.x49.
Definition b_R : Byte.byte := Byte.x52.
Definition b_H : Byte.byte := Byte.x48.
Definition b_E : Byte.byte := Byte.x45.
Definition b_NL : Byte.byte := Byte.x0a.

Definition opcode (input : list Byte.byte) : Byte.byte := nth 0 input Byte.x00.
Definition key_slice (input : list Byte.byte) : key := slice 1 64 input.
Definition value_slice (input : list Byte.byte) : raw := slice 64 128 input.

(** What the environment supplies to one call: the wall clock and the
    outcomes of the file system calls of a save. *)
Record env := mkEnv { now : Z; io : io_env }.

(** [if self.ops_since_invalidation.fetch_add(1) >= self.invalidation_threshold
    { self.invalidate_cache()?; self.ops_since_invalidation.store(0) }] *)
Definition count_op (c : Cache) : Cache :=
  if Nat.leb (invalidation_threshold c) (ops_since_invalidation c)
  then set_counter 0 (S (pending_sweeps c)) c
  else set_counter (S (ops_since_invalidation c)) (pending_sweeps c) c.

(** The [b'G'] arm. *)
Definition get_path (k : key) (c0 : Cache) : list Byte.byte * Cache :=
  match vals c0 !! k with
  | Some out => (out ++ [b_NL], c0)
  | None => ([b_G; b_NL], c0)
  end.

(** The [b'R'] arm. *)
Definition remove_path (k : key) (c0 : Cache) : list Byte.byte * Cache :=
  ([b_R; b_NL],
   set_save_flag true (set_vals_entries (delete k (vals c0)) (delete k (entries c0)) c0)).

(** The [b'I'] arm; [None] is the panic of [timestamp + TimeDelta]. *)
Definition insert_path (now : Z) (k : key) (value : raw) (c0 : Cache)
    : option (list Byte.byte * Cache) :=
  let expire_time_seconds := raw_offset value in
  let timestamp := now in
  let expires :=
    if 0 <? expire_time_seconds then
      match add_seconds timestamp expire_time_seconds with
      | Some x => Some (Some x)
      | None => None
      end
    else Some None in
  match expires with
  | None => None
  | Some expires_at =>
      let entry := mkEntry (slice 0 56 value) timestamp expires_at in
      Some ([b_I; b_NL],
            set_save_flag true
              (set_vals_entries (<[k:=value]> (vals c0)) (<[k:=entry]> (entries c0)) c0))
  end.

(** The [b'H'] arm: an [Err] of [clean_up] is swallowed (its debug-mode
    message on stdout is not modelled), a panic is not. *)
Definition halt_path (e : env) (c0 : Cache) : option (list Byte.byte * Cache) :=
  match clean_up (now e) (io e) c0 with
  | None => None
  | Some (_, c') => Some ([], c')
  end.

(** [handle_in]: the bytes written to stdout and the new cache; [None] is a
    panic. *)
Definition handle_in (e : env) (input : list Byte.byte) (c : Cache)
    : option (list Byte.byte * Cache) :=
  let c0 := count_op c in
  let command := opcode input in
  let k := key_slice input in
  if is_empty_key k && (Byte.eqb command b_I || Byte.eqb command b_G)
  then Some ([b_E; b_NL], c0)
  else
    let v := value_slice input in
    if Byte.eqb command b_G then Some (get_path k c0)
    else if Byte.eqb command b_R then Some (remove_path k c0)
    else if Byte.eqb command b_I then insert_path (now e) k v c0
    else if Byte.eqb command b_H then halt_path e c0
    else Some ([], c0).

(** Background sweeps run at the successive times [ts]. *)
Definition sweeps (ts : list Z) (c : Cache) : Cache :=
  fold_left (fun c t => (sweep t c).2) ts c.

(** ** Round trip of the persistence codec *)

(** One 127-byte record of the cache file. *)
Definition encode_record (kv : key * raw) : list Byte.byte := kv.1 ++ kv.2.

(** Expired at [now] as [load] decides it (a panic counts as not expired). *)
Definition expired_raw (now : Z) (v : raw) : bool :=
  match decode_expires now v with
  | Some (Some x) => x <=? now
  | _ => false
  end.

(** A record [load] keeps at [now]. *)
Definition load_accepts (now : Z) (k : key) (v : raw) : bool :=
  negb (is_empty_key k) && negb (expired_raw now v).

(** The raw-value map [load] builds from the records [l]. *)
Definition load_vals (now : Z) (l : list (key * raw)) (vs : gmap key raw) : gmap key raw :=
  fold_left (fun m kv => if load_accepts now kv.1 kv.2 then <[kv.1:=kv.2]> m else m) l vs.

(** Keys and raw values have the sizes of the Rust arrays. *)
Definition store_wf (c : Cache) : Prop :=
  forall k v, vals c !! k = Some v -> length k = 63%nat /\ length v = 64%nat.

(** ** Batches, the input loops, shutdown and startup *)

(** The loop of [handle_batch]: the frames in order, each with the
    environment of its own call (the clock is read inside [handle_in]); the
    bytes written to stdout are concatenated. The pushed results are all
    [Ok(())]: the only [?] of [handle_in] is on [invalidate_cache], which
    returns [Ok(())]. *)
Fixpoint handle_all (inputs : list (env * list Byte.byte)) (c : Cache)
    : option (list Byte.byte * Cache) :=
  match inputs with
  | [] => Some ([], c)
  | (e, input) :: r =>
      match handle_in e input c with
      | None => None
      | Some (o, c1) =>
          match handle_all r c1 with
          | None => None
          | Some (o', c2) => Some (o ++ o', c2)
          end
      end
  end.

(** [BufferAccess::handle_batch]: the loop, then
    [self.save_flag.store(true)]. *)
Definition handle_batch (inputs : list (env * list Byte.byte)) (c : Cache)
    : option (list Byte.byte * Cache) :=
  match handle_all inputs c with
  | None => None
  | Some (o, c') => Some (o, set_save_flag true c')
  end.

(** [io::stdin().read(&mut *input_buf)] into the 128-byte buffer [buf]: the
    [n] bytes read ([data], at most 128 of them) overwrite its first [n]
    bytes, the others keep what was there. *)
Definition read_into (buf data : list Byte.byte) : list Byte.byte :=
  let n := length (firstn 128 data) in
  firstn n data ++ skipn n buf.

(** [BufferAccess::_read]: the read goes into the shared [cur_buf], which
    holds the previous frame; the new buffer is both stored and returned. *)
Definition buffer_read (cur_buf data : list Byte.byte) : list Byte.byte :=
  read_into cur_buf data.

(** The buffer thread of [tasks::run_tasks]: each iteration reads into a
    fresh [[0u8; 128]] and passes it to [handle_in], dropping its result
    ([let _ =]); an [Err] of [read] ([None] here) skips the iteration; a
    panic ends the thread. The reads are given with the environment of the
    call they start; only the output and the cache are kept. *)
Fixpoint buffer_thread (reads : list (env * option (list Byte.byte))) (c : Cache)
    : option (list Byte.byte * Cache) :=
  match reads with
  | [] => Some ([], c)
  | (_, None) :: r => buffer_thread r c
  | (e, Some data) :: r =>
      match handle_in e (read_into (repeat Byte.x00 128) data) c with
      | None => None
      | Some (o, c1) =>
          match buffer_thread r c1 with
          | None => None
          | Some (o', c2) => Some (o ++ o', c2)
          end
      end
  end.

(** [handle_close]: the save's [Err] is printed and dropped, then
    [should_exit] is set; returns [should_exit] and the cache ([None] is a
    panic of the save). *)
Definition handle_close (e : env) (c : Cache) : option (bool * Cache) :=
  match clean_up (now e) (io e) c with
  | None => None
  | Some (_, c') => Some (true, c')
  end.

(** The start of [main]: [Cache::new] and [cache.load()] of the file
    [file] found in data/ (an [Err] of [load] is printed and dropped). *)
Definition startup (now : Z) (file : list Byte.byte) : option Cache :=
  load now (set_file file cache_new).

(** ** [tasks::invalidate_cache] *)

(** [i16::from_be_bytes] of two bytes. *)
Definition be_i16 (bs : list Byte.byte) : Z :=
  let u := be_int bs in
  if u <? 32768 then u else u - 65536.

(** [start_time + (expire_time as i64)]: the 6-byte timestamp field plus
    the offset field read as a signed [i16]. *)
Definition tasks_expire_timestamp (v : raw) : Z :=
  raw_timestamp v + be_i16 (slice 62 64 v).

(** The scan over [kv.iter_mut()]: [clock i] is the value of
    [chrono::Utc::now().timestamp()] read for the [i]-th entry; a key is
    kept for removal when [current_timestamp > expire_timestamp]. *)
Fixpoint tasks_scan (clock : nat -> Z) (i : nat) (l : list (key * raw)) : list key :=
  match l with
  | [] => []
  | (k, v) :: r =>
      if tasks_expire_timestamp v <? clock i then k :: tasks_scan clock (S i) r
      else tasks_scan clock (S i) r
  end.

(** [tasks::invalidate_cache]: the scan, then [kv.remove(&item)] for each
    collected key; it always returns [Ok(())]. *)
Definition tasks_invalidate_cache (clock : nat -> Z) (kv : gmap key raw) : gmap key raw :=
  fold_left (fun m k => delete k m) (tasks_scan clock 0 (map_to_list kv)) kv.

(** ** The codec of [utils.rs] *)

(** [create_byte_lines]: every key and then its value, byte by byte, in the
    iteration order of the map. *)
Fixpoint create_byte_lines (kvs : list (key * raw)) : list Byte.byte :=
  match kvs with
  | [] => []
  | (k, v) :: r => k ++ v ++ create_byte_lines r
  end.

Definition byte_in (lo hi : Z) (b : Byte.byte) : bool :=
  (lo <=? byteZ b) && (byteZ b <=? hi).

(** The accepted second byte of a sequence led by [b] (RFC 3629). *)
Definition utf8_second (b c : Byte.byte) : bool :=
  let x := byteZ b in
  if x =? 224 then byte_in 160 191 c
  else if x =? 237 then byte_in 128 159 c
  else if x =? 240 then byte_in 144 191 c
  else if x =? 244 then byte_in 128 143 c
  else byte_in 128 191 c.

(** The check of [String::from_utf8]. *)
Fixpoint utf8_valid (l : list Byte.byte) : bool :=
  match l with
  | [] => true
  | b :: r =>
      if byteZ b <? 128 then utf8_valid r
      else if byte_in 194 223 b then
        match r with
        | c1 :: r' => byte_in 128 191 c1 && utf8_valid r'
        | [] => false
        end
      else if byte_in 224 239 b then
        match r with
        | c1 :: c2 :: r' => utf8_second b c1 && byte_in 128 191 c2 && utf8_valid r'
        | _ => false
        end
      else if byte_in 240 244 b then
        match r with
        | c1 :: c2 :: c3 :: r' =>
            utf8_second b c1 && byte_in 128 191 c2 && byte_in 128 191 c3 && utf8_valid r'
        | _ => false
        end
      else false
  end.

(** The locals of the loop of [handle_read_lines]. *)
Record rl_state := mkRl {
  rl_map : gmap key raw;
  rl_key : list Byte.byte;
  rl_value : list Byte.byte;
  rl_is_key : bool
}.

(** One iteration of [for line in lines.iter()]; [None] is the panic of
    [String::from_utf8(key.clone()).unwrap()], evaluated for the log
    message when the loop switches from the key to the value. *)
Definition read_line (s : rl_state) (line : Byte.byte) : option rl_state :=
  let switch :=
    if Nat.eqb (length (rl_key s)) 63 then
      if rl_is_key s then
        if utf8_valid (rl_key s) then Some false else None
      else Some (rl_is_key s)
    else if negb (rl_is_key s) then Some true else Some (rl_is_key s) in
  match switch with
  | None => None
  | Some is_key =>
      let key := if is_key then rl_key s ++ [line] else rl_key s in
      let value := if is_key then rl_value s else rl_value s ++ [line] in
      if Nat.eqb (length key) 63 && Nat.eqb (length value) 64 then
        Some (mkRl (<[firstn 63 key := firstn 64 value]> (rl_map s)) [] [] is_key)
      else Some (mkRl (rl_map s) key value is_key)
  end.

Fixpoint read_lines (s : rl_state) (lines : list Byte.byte) : option rl_state :=
  match lines with
  | [] => Some s
  | line :: r =>
      match read_line s line with
      | None => None
      | Some s' => read_lines s' r
      end
  end.

(** [handle_read_lines]; [None] is a panic. *)
Definition handle_read_lines (lines : list Byte.byte) : option (gmap key raw) :=
  option_map rl_map (read_lines (mkRl ∅ [] [] true) lines).

(** [utils.rs]'s [Cache::clean_up]: [create_byte_lines] of the map, then
    [File::create(..)?] and one [file.write(&writable_bytes)?] (no flush);
    returns [Ok] ([true]) or [Err] ([false]) and the file contents. *)
Definition utils_clean_up (io : io_env) (m : gmap key raw) (file : list Byte.byte)
    : bool * list Byte.byte :=
  let writable_bytes := create_byte_lines (map_to_list m) in
  if negb (create_ok io) then (false, file)
  else
    match write_res io with
    | None => (false, [])
    | Some n => (true, firstn n writable_bytes)
    end.

(** [handle_save]: [self.clean_up().expect(..)]; [None] is the panic. *)
Definition utils_handle_save (io : io_env) (m : gmap key raw) (file : list Byte.byte)
    : option (list Byte.byte) :=
  match utils_clean_up io m file with
  | (true, f) => Some f
  | (false, _) => None
  end.

(** [utils.rs]'s [Cache::load]: [File::open(..)?] returns [Err] on a missing
    file ([None]), leaving [vals]; otherwise [vals] becomes
    [handle_read_lines(buf)]. Returns [Ok]/[Err] and the map; [None] is a
    panic. *)
Definition utils_load (file : option (list Byte.byte)) (m : gmap key raw)
    : option (bool * gmap key raw) :=
  match file with
  | None => Some (false, m)
  | Some buf =>
      match handle_read_lines buf with
      | None => None
      | Some m' => Some (true, m')
      end
  end.

(** ** [Logger::write_log] *)

(** ["\n\r[LOG]"] *)
Definition log_prefix : list Byte.byte :=
  [Byte.x0a; Byte.x0d; Byte.x5b; Byte.x4c; Byte.x4f; Byte.x47; Byte.x5d].

(** [Logger::write_log]: the spawned thread reads the log file, appends
    ["\n\r[LOG]"] and the message and writes it back, each with [unwrap()]
    ([None] for the file: it cannot be read or written, and the panic is
    re-raised by [join().unwrap()]); with [out] the message and a newline
    go to stdout. Returns stdout and the new file contents. *)
Definition logger_write_log (out : bool) (file : option (list Byte.byte))
    (input : list Byte.byte) : option (list Byte.byte * list Byte.byte) :=
  match file with
  | None => None
  | Some buf => Some (if out then input ++ [b_NL] else [], buf ++ log_prefix ++ input)
  end.

(** Successive calls of [write_log] on one logger. *)
Fixpoint logger_write_seq (out : bool) (file : option (list Byte.byte))
    (msgs : list (list Byte.byte)) : option (list Byte.byte * option (list Byte.byte)) :=
  match msgs with
  | [] => Some ([], file)
  | m :: r =>
      match logger_write_log out file m with
      | None => None
      | Some (o, f) =>
          match logger_write_seq out (Some f) r with
          | None => None
          | Some (o', f') => Some (o ++ o', f')
          end
      end
  end.

(** The raw-value map after the ['I'] and ['R'] frames [inputs], applied in
    order: a remove deletes the key, an insert with an all-zero key does
    nothing, any other insert stores the frame's bytes [64..128]. *)
Definition batch_vals (inputs : list (list Byte.byte)) (m : gmap key raw) : gmap key raw :=
  fold_left (fun m input =>
      if Byte.eqb (opcode input) b_R then delete (key_slice input) m
      else if is_empty_key (key_slice input) then m
      else <[key_slice input := value_slice input]> m)
    inputs m.

(** ** Concrete inputs *)

(** [n] big-endian bytes of [x] (to build frames). *)
Fixpoint be_bytes (n : nat) (x : Z) : list Byte.byte :=
  match n with
  | O => []
  | S m =>
      be_bytes m (x / 256) ++
      [match Byte.of_nat (Z.to_nat (x mod 256)) with Some b => b | None => Byte.x00 end]
  end.

Definition frame (op : Byte.byte) (k : key) (v : raw) : list Byte.byte := op :: k ++ v.

(** A raw value: 56 payload bytes [p], timestamp field [ts], offset [off]. *)
Definition mk_raw (p : Byte.byte) (ts off : Z) : raw :=
  repeat p 56 ++ be_bytes 6 ts ++ be_bytes 2 off.

Definition K1 : key := repeat Byte.x01 63.
Definition K2 : key := repeat Byte.x03 63.
Definition zero_key : key := repeat Byte.x00 63.
Definition io_full : io_env := mkIo true (Some 4096%nat) true.

(** A cache holding [K1 ↦ r1], as an insert of [r1] at time 1000 leaves it. *)
Definition r1 : raw := mk_raw Byte.x02 1000 3600.
Definition e1 : CacheEntry := mkEntry (repeat Byte.x02 56) 1000 (Some 4600).
Definition st_K1 : Cache := set_vals_entries {[K1 := r1]} {[K1 := e1]} cache_new.

(** Three inserts as in the batch test of buffer.rs. *)
Definition K3 : key := repeat Byte.x05 63.
Definition batch3 : list (env * list Byte.byte) :=
  [(mkEnv 1000 io_full, frame b_I K1 r1);
   (mkEnv 1001 io_full, frame b_I K2 (mk_raw Byte.x04 0 0));
   (mkEnv 1002 io_full, frame b_I K3 r1)].

(** ** Basic facts *)

Lemma count_op_vals (c : Cache) : vals (count_op c) = vals c.
Proof. unfold count_op. by destruct (Nat.leb _ _). Qed.

Lemma count_op_entries (c : Cache) : entries (count_op c) = entries c.
Proof. unfold count_op. by destruct (Nat.leb _ _). Qed.

Lemma count_op_save_flag (c : Cache) : save_flag (count_op c) = save_flag c.
Proof. unfold count_op. by destruct (Nat.leb _ _). Qed.

Lemma count_op_threshold (c : Cache) :
  invalidation_threshold (count_op c) = invalidation_threshold c.
Proof. unfold count_op. by destruct (Nat.leb _ _). Qed.

Lemma byte_eqb_refl (b : Byte.byte) : Byte.eqb b b = true.
Proof. by apply Byte.byte_dec_lb. Qed.

(** The guard of [handle_in] for a non-empty key. *)
Lemma empty_guard_false (k : key) (b : bool) :
  is_empty_key k = false -> is_empty_key k && b = false.
Proof. intros ->. reflexivity. Qed.

Example be_bytes_roundtrip :
  raw_timestamp (mk_raw Byte.x02 12345 3600) = 12345 /\
  raw_offset (mk_raw Byte.x02 12345 3600) = 3600.
Proof. split; vm_compute; reflexivity. Qed.

Example insert_then_get_example :
  match handle_in (mkEnv 1000 io_full) (frame b_I K1 r1) cache_new with
  | Some (o, c) =>
      o = [b_I; b_NL] /\ vals c !! K1 = Some r1 /\ entries c !! K1 = Some e1 /\
      option_map fst (handle_in (mkEnv 1001 io_full) (frame b_G K1 (mk_raw Byte.x00 0 0)) c)
        = Some (r1 ++ [b_NL])
  | None => False
  end.
Proof. vm_compute. repeat split. Qed.

(** The arms of [handle_in] for [b'R'] and [b'H'] do not look at the key. *)
Lemma handle_in_remove (e : env) (input : list Byte.byte) (c : Cache) :
  opcode input = b_R ->
  handle_in e input c = Some (remove_path (key_slice input) (count_op c)).
Proof.
  intros Hop. unfold handle_in. rewrite Hop.
  by destruct (is_empty_key (key_slice input)).
Qed.

Lemma handle_in_halt (e : env) (input : list Byte.byte) (c : Cache) :
  opcode input = b_H -> handle_in e input c = halt_path e (count_op c).
Proof.
  intros Hop. unfold handle_in. rewrite Hop.
  by destruct (is_empty_key (key_slice input)).
Qed.

Lemma handle_in_get (e : env) (input : list Byte.byte) (c : Cache) :
  opcode input = b_G -> is_empty_key (key_slice input) = false ->
  handle_in e input c = Some (get_path (key_slice input) (count_op c)).
Proof. intros Hop Hk. unfold handle_in. by rewrite Hop, Hk. Qed.

Lemma handle_in_insert (e : env) (input : list Byte.byte) (c : Cache) :
  opcode input = b_I -> is_empty_key (key_slice input) = false ->
  handle_in e input c = insert_path (now e) (key_slice input) (value_slice input) (count_op c).
Proof. intros Hop Hk. unfold handle_in. by rewrite Hop, Hk. Qed.

(** The counter fields, which only [count_op] changes. *)
Definition same_counters (c c' : Cache) : Prop :=
  ops_since_invalidation c' = ops_since_invalidation c /\
  pending_sweeps c' = pending_sweeps c /\
  invalidation_threshold c' = invalidation_threshold c.

Lemma clean_up_counters (now : Z) (io : io_env) (c c' : Cache) (b : bool) :
  clean_up now io c = Some (b, c') -> same_counters c c'.
Proof.
  unfold clean_up, same_counters. destruct (create_ok io); simpl.
  - destruct (serialize _ _); [|discriminate].
    destruct (write_res io); [|intros [= <- <-]; done].
    destruct (flush_ok io); intros [= <- <-]; done.
  - intros [= <- <-]; done.
Qed.

Lemma handle_in_counters (e : env) (input : list Byte.byte) (c c' : Cache)
    (out : list Byte.byte) :
  handle_in e input c = Some (out, c') -> same_counters (count_op c) c'.
Proof.
  unfold handle_in.
  destruct (_ && _); [intros [= _ <-]; done|].
  destruct (Byte.eqb _ b_G); [unfold get_path; destruct (_ !! _); intros [= _ <-]; done|].
  destruct (Byte.eqb _ b_R); [intros [= _ <-]; done|].
  destruct (Byte.eqb _ b_I).
  { unfold insert_path. destruct (0 <? _).
    - destruct (add_seconds _ _); [intros [= _ <-]; done | discriminate].
    - intros [= _ <-]; done. }
  destruct (Byte.eqb _ b_H); [|intros [= _ <-]; done].
  unfold halt_path. destruct (clean_up _ _ _) as [[b c1]|] eqn:Hc; [|discriminate].
  intros [= _ <-]. by eapply clean_up_counters.
Qed.

(** ** Claims about the dispatcher *)

(** Claim C1 (as amended). For a ['G'] frame whose key is not all-zero, the
    dispatcher writes the whole stored raw value (the 64 bytes stored by the
    insert: payload, timestamp field and offset field) followed by ["\n"]
    when the key is in the raw-value map, and ["G\n"] otherwise; the maps are
    not changed. *)
Theorem C1_get_emits_raw_value (e : env) (input : list Byte.byte) (c : Cache) :
  opcode input = b_G -> is_empty_key (key_slice input) = false ->
  handle_in e input c =
    Some (match vals c !! key_slice input with
          | Some v => v ++ [b_NL]
          | None => [b_G; b_NL]
          end, count_op c).
Proof.
  intros Hop Hk. rewrite handle_in_get by done.
  unfold get_path. rewrite count_op_vals. by destruct (vals c !! key_slice input).
Qed.

Lemma C1_get_emits_raw_value_witness :
  opcode (frame b_G K1 (mk_raw Byte.x00 0 0)) = b_G /\
  is_empty_key (key_slice (frame b_G K1 (mk_raw Byte.x00 0 0))) = false /\
  handle_in (mkEnv 1000 io_full) (frame b_G K1 (mk_raw Byte.x00 0 0)) st_K1 =
    Some (match vals st_K1 !! key_slice (frame b_G K1 (mk_raw Byte.x00 0 0)) with
          | Some v => v ++ [b_NL]
          | None => [b_G; b_NL]
          end, count_op st_K1).
Proof.
  split; [reflexivity|]. split; [vm_compute; reflexivity|].
  apply C1_get_emits_raw_value; [reflexivity | vm_compute; reflexivity].
Defined.

(** Claim C1, refuted as stated: a ['G'] of the stored key [K1] writes the 64
    bytes of [r1] and ["\n"] (65 bytes), not the 56-byte payload and ["\n"]. *)
Lemma C1_get_payload_only_cex :
  option_map fst (handle_in (mkEnv 1000 io_full) (frame b_G K1 (mk_raw Byte.x00 0 0)) st_K1)
    <> Some (slice 0 56 r1 ++ [b_NL]).
Proof.
  intros H. apply (f_equal (option_map (@length Byte.byte))) in H.
  vm_compute in H. discriminate.
Qed.

(** Claim C4. For a frame whose 63-byte key is all zeros, a ['G'] or an ['I']
    writes ["E\n"] and leaves both maps as they were, while ['R'] and ['H']
    frames take the same path as for any key: the remove of that key, and the
    save. *)
Theorem C4_empty_key (e : env) (input : list Byte.byte) (c : Cache) :
  is_empty_key (key_slice input) = true ->
  ((opcode input = b_G \/ opcode input = b_I) ->
     exists c', handle_in e input c = Some ([b_E; b_NL], c') /\
                vals c' = vals c /\ entries c' = entries c) /\
  (opcode input = b_R ->
     handle_in e input c = Some (remove_path (key_slice input) (count_op c))) /\
  (opcode input = b_H -> handle_in e input c = halt_path e (count_op c)).
Proof.
  intros Hk. split; [|split].
  - intros Hop. exists (count_op c).
    rewrite count_op_vals, count_op_entries. split; [|done].
    unfold handle_in. rewrite Hk. by destruct Hop as [-> | ->].
  - apply handle_in_remove.
  - apply handle_in_halt.
Qed.

Lemma C4_empty_key_witness :
  is_empty_key (key_slice (frame b_G zero_key r1)) = true /\
  exists c', handle_in (mkEnv 1000 io_full) (frame b_G zero_key r1) st_K1
             = Some ([b_E; b_NL], c') /\ vals c' = vals st_K1 /\ entries c' = entries st_K1.
Proof.
  split; [vm_compute; reflexivity|].
  apply (C4_empty_key (mkEnv 1000 io_full) (frame b_G zero_key r1) st_K1);
    [vm_compute; reflexivity | left; reflexivity].
Defined.

(** Claim C8. An ['R'] frame for a key in neither map leaves both maps
    unchanged, writes ["R\n"] and sets the dirty flag. *)
Theorem C8_remove_absent (e : env) (input : list Byte.byte) (c : Cache) :
  opcode input = b_R ->
  vals c !! key_slice input = None -> entries c !! key_slice input = None ->
  exists c', handle_in e input c = Some ([b_R; b_NL], c') /\
             vals c' = vals c /\ entries c' = entries c /\ save_flag c' = true.
Proof.
  intros Hop Hv He. rewrite handle_in_remove by done.
  eexists. split; [reflexivity|]. simpl.
  rewrite count_op_vals, count_op_entries.
  by rewrite !delete_id.
Qed.

Lemma C8_remove_absent_witness :
  opcode (frame b_R K2 r1) = b_R /\
  vals st_K1 !! key_slice (frame b_R K2 r1) = None /\
  entries st_K1 !! key_slice (frame b_R K2 r1) = None /\
  exists c', handle_in (mkEnv 1000 io_full) (frame b_R K2 r1) st_K1 = Some ([b_R; b_NL], c') /\
             vals c' = vals st_K1 /\ entries c' = entries st_K1 /\ save_flag c' = true.
Proof.
  split; [reflexivity|]. split; [vm_compute; reflexivity|]. split; [vm_compute; reflexivity|].
  apply C8_remove_absent; [reflexivity | vm_compute; reflexivity | vm_compute; reflexivity].
Defined.

(** Claim C9 (as amended). Every call of the dispatcher, whatever its opcode
    (get, insert, remove, halt, unknown, empty key), increments the operation
    counter; a call that finds the counter, before its own increment, at or
    above the threshold (100 by default) schedules one invalidation sweep and
    leaves the counter at zero. *)
Theorem C9_counter_every_frame :
  invalidation_threshold cache_new = 100%nat /\
  forall (e : env) (input : list Byte.byte) (c c' : Cache) (out : list Byte.byte),
  handle_in e input c = Some (out, c') ->
  ops_since_invalidation c' =
    (if Nat.leb (invalidation_threshold c) (ops_since_invalidation c)
     then 0%nat else S (ops_since_invalidation c)) /\
  pending_sweeps c' =
    (if Nat.leb (invalidation_threshold c) (ops_since_invalidation c)
     then S (pending_sweeps c) else pending_sweeps c) /\
  invalidation_threshold c' = invalidation_threshold c.
Proof.
  split; [reflexivity|].
  intros e input c c' out H. apply handle_in_counters in H as (H1 & H2 & H3).
  rewrite H1, H2, H3. unfold count_op.
  destruct (Nat.leb _ _); simpl; done.
Qed.

Lemma C9_counter_every_frame_witness :
  handle_in (mkEnv 1000 io_full) (frame b_G K1 r1) cache_new
    = Some ([b_G; b_NL], count_op cache_new) /\
  ops_since_invalidation (count_op cache_new) = 1%nat.
Proof.
  assert (H : handle_in (mkEnv 1000 io_full) (frame b_G K1 r1) cache_new
              = Some ([b_G; b_NL], count_op cache_new)) by (vm_compute; reflexivity).
  split; [exact H|].
  rewrite (proj1 (proj2 (C9_counter_every_frame) _ _ _ _ _ H)). reflexivity.
Defined.

(** Claim C9, refuted as stated: a ['G'] frame, which mutates nothing, moves
    the counter of a fresh cache from 0 to 1. *)
Lemma C9_get_counts_cex :
  option_map (fun p => ops_since_invalidation p.2)
    (handle_in (mkEnv 1000 io_full) (frame b_G K1 r1) cache_new) = Some 1%nat /\
  ops_since_invalidation cache_new = 0%nat.
Proof. split; vm_compute; reflexivity. Qed.

(** ** Big-endian decoding bounds *)

Lemma be_int_acc (bs : list Byte.byte) (acc : Z) :
  fold_left (fun acc b => acc * 256 + byteZ b) bs acc
  = acc * 256 ^ Z.of_nat (length bs) + be_int bs.
Proof.
  unfold be_int. revert acc. induction bs as [|b bs IH]; intros acc; simpl.
  - lia.
  - rewrite (IH (acc * 256 + byteZ b)), (IH (0 * 256 + byteZ b)).
    rewrite Nat2Z.inj_succ, Z.pow_succ_r by lia. lia.
Qed.

Lemma byteZ_range (b : Byte.byte) : 0 <= byteZ b <= 255.
Proof. unfold byteZ. pose proof (Byte.to_nat_bounded b). lia. Qed.

Lemma be_int_range (bs : list Byte.byte) :
  0 <= be_int bs < 256 ^ Z.of_nat (length bs).
Proof.
  induction bs as [|b bs IH].
  - vm_compute. split; [discriminate | reflexivity].
  - assert (E : be_int (b :: bs) = byteZ b * 256 ^ Z.of_nat (length bs) + be_int bs).
    { unfold be_int at 1. simpl fold_left. rewrite be_int_acc. lia. }
    rewrite E. pose proof (byteZ_range b).
    rewrite length_cons, Nat2Z.inj_succ, Z.pow_succ_r by lia.
    assert (0 < 256 ^ Z.of_nat (length bs)) by (apply Z.pow_pos_nonneg; lia).
    remember (256 ^ Z.of_nat (length bs)) as P.
    assert (byteZ b * P <= 255 * P) by (apply Z.mul_le_mono_nonneg_r; lia).
    nia.
Qed.

Lemma raw_offset_range (v : raw) : 0 <= raw_offset v <= 65535.
Proof.
  unfold raw_offset. pose proof (be_int_range (slice 62 64 v)) as H.
  assert (Hl : (length (slice 62 64 v) <= 2)%nat).
  { unfold slice. rewrite length_firstn. lia. }
  assert (256 ^ Z.of_nat (length (slice 62 64 v)) <= 65536).
  { change 65536 with (256 ^ Z.of_nat 2). apply Z.pow_le_mono_r; lia. }
  lia.
Qed.

(** ** The insert path *)

(** [add_seconds] inside chrono's range. *)
Lemma add_seconds_ok (t d : Z) : t + d <= max_timestamp -> add_seconds t d = Some (t + d).
Proof. intros H. unfold add_seconds. by rewrite (proj2 (Z.leb_le _ _) H). Qed.

Lemma insert_path_spec (now : Z) (k : key) (v : raw) (c0 : Cache) :
  now + 65535 <= max_timestamp ->
  insert_path now k v c0 =
    Some ([b_I; b_NL],
          set_save_flag true
            (set_vals_entries (<[k:=v]> (vals c0))
               (<[k:=mkEntry (slice 0 56 v) now
                      (if 0 <? raw_offset v then Some (now + raw_offset v) else None)]>
                  (entries c0)) c0)).
Proof.
  intros Hnow. unfold insert_path.
  pose proof (raw_offset_range v).
  destruct (0 <? raw_offset v); [|done].
  by rewrite add_seconds_ok by lia.
Qed.

(** Claim C3 (as amended). For an ['I'] frame with a non-zero key, the entry
    map records the payload, [created_at = now] and the expiry [now + offset]
    (none for offset 0), with the offset read from the frame's last two
    bytes; the raw-value map stores the frame's bytes [64..128] verbatim,
    the caller's 6-byte timestamp field included; other keys are untouched
    and the dirty flag is set. *)
Theorem C3_insert_stamps_now (e : env) (input : list Byte.byte) (c : Cache) :
  opcode input = b_I -> is_empty_key (key_slice input) = false ->
  now e + 65535 <= max_timestamp ->
  exists c', handle_in e input c = Some ([b_I; b_NL], c') /\
    entries c' !! key_slice input =
      Some (mkEntry (slice 0 56 (value_slice input)) (now e)
              (if 0 <? raw_offset (value_slice input)
               then Some (now e + raw_offset (value_slice input)) else None)) /\
    vals c' !! key_slice input = Some (value_slice input) /\
    (forall k', k' <> key_slice input ->
       vals c' !! k' = vals c !! k' /\ entries c' !! k' = entries c !! k') /\
    save_flag c' = true.
Proof.
  intros Hop Hk Hnow. rewrite handle_in_insert by done.
  rewrite insert_path_spec by done.
  eexists. split; [reflexivity|]. simpl.
  rewrite count_op_vals, count_op_entries.
  split; [by rewrite lookup_insert_eq|]. split; [by rewrite lookup_insert_eq|].
  split; [|done].
  intros k' Hne. by rewrite !lookup_insert_ne by congruence.
Qed.

Lemma C3_insert_stamps_now_witness :
  opcode (frame b_I K1 (mk_raw Byte.x02 0 3600)) = b_I /\
  is_empty_key (key_slice (frame b_I K1 (mk_raw Byte.x02 0 3600))) = false /\
  now (mkEnv 1000 io_full) + 65535 <= max_timestamp /\
  exists c', handle_in (mkEnv 1000 io_full) (frame b_I K1 (mk_raw Byte.x02 0 3600)) cache_new
             = Some ([b_I; b_NL], c') /\
    entries c' !! key_slice (frame b_I K1 (mk_raw Byte.x02 0 3600)) =
      Some (mkEntry (slice 0 56 (value_slice (frame b_I K1 (mk_raw Byte.x02 0 3600)))) 1000
              (if 0 <? raw_offset (value_slice (frame b_I K1 (mk_raw Byte.x02 0 3600)))
               then Some (1000 + raw_offset (value_slice (frame b_I K1 (mk_raw Byte.x02 0 3600))))
               else None)) /\
    vals c' !! key_slice (frame b_I K1 (mk_raw Byte.x02 0 3600))
      = Some (value_slice (frame b_I K1 (mk_raw Byte.x02 0 3600))) /\
    (forall k', k' <> key_slice (frame b_I K1 (mk_raw Byte.x02 0 3600)) ->
       vals c' !! k' = vals cache_new !! k' /\ entries c' !! k' = entries cache_new !! k') /\
    save_flag c' = true.
Proof.
  split; [reflexivity|]. split; [vm_compute; reflexivity|]. split; [vm_compute; discriminate|].
  apply (C3_insert_stamps_now (mkEnv 1000 io_full));
    [reflexivity | vm_compute; reflexivity | vm_compute; discriminate].
Defined.

(** Claim C3, refuted as stated: two ['I'] frames at the same time that differ
    only in the timestamp field (0 and 5) leave different raw values stored
    for [K1]. *)
Lemma C3_timestamp_field_stored_cex :
  option_map (fun p => vals p.2 !! K1)
    (handle_in (mkEnv 1000 io_full) (frame b_I K1 (mk_raw Byte.x02 0 3600)) cache_new)
  <> option_map (fun p => vals p.2 !! K1)
    (handle_in (mkEnv 1000 io_full) (frame b_I K1 (mk_raw Byte.x02 5 3600)) cache_new).
Proof. vm_compute. discriminate. Qed.

(** ** The sweep *)

Lemma remove_keys_lookup (ks : list key) (c : Cache) (k : key) :
  vals (remove_keys ks c) !! k = (if decide (k ∈ ks) then None else vals c !! k) /\
  entries (remove_keys ks c) !! k = (if decide (k ∈ ks) then None else entries c !! k).
Proof.
  unfold remove_keys. revert c. induction ks as [|k0 ks IH]; intros c; simpl.
  - destruct (decide (k ∈ [])) as [Hin|]; [set_solver|done].
  - destruct (IH (set_vals_entries (delete k0 (vals c)) (delete k0 (entries c)) c))
      as [-> ->].
    simpl. destruct (decide (k = k0)) as [->|Hne].
    + destruct (decide (k0 ∈ ks)); destruct (decide (k0 ∈ k0 :: ks)) as [_|Hn];
        rewrite ?lookup_delete_eq; try done; exfalso; apply Hn; set_solver.
    + destruct (decide (k ∈ ks)); destruct (decide (k ∈ k0 :: ks)) as [|Hn];
        rewrite ?lookup_delete_ne by congruence; try done; exfalso; set_solver.
Qed.

Lemma elem_of_keys_to_remove (now : Z) (es : gmap key CacheEntry) (k : key) :
  k ∈ keys_to_remove now es <->
  exists en, es !! k = Some en /\ entry_expired now en = true.
Proof.
  unfold keys_to_remove. rewrite list_elem_of_fmap. split.
  - intros [[k' en] [-> Hin]]. apply list_elem_of_filter in Hin as [Hx Hin].
    apply elem_of_map_to_list in Hin. by exists en.
  - intros [en [Hl Hx]]. exists (k, en). split; [done|].
    apply list_elem_of_filter. split; [done|]. by apply elem_of_map_to_list.
Qed.

(** The effect of one sweep on one key. *)
Lemma sweep_lookup (now : Z) (c : Cache) (k : key) :
  entries (sweep now c).2 !! k =
    match entries c !! k with
    | Some en => if entry_expired now en then None else Some en
    | None => None
    end /\
  vals (sweep now c).2 !! k =
    match entries c !! k with
    | Some en => if entry_expired now en then None else vals c !! k
    | None => vals c !! k
    end.
Proof.
  unfold sweep. simpl.
  destruct (remove_keys_lookup (keys_to_remove now (entries c)) c k) as [-> ->].
  pose proof (elem_of_keys_to_remove now (entries c) k) as Hk.
  destruct (entries c !! k) as [en|] eqn:He; [destruct (entry_expired now en) eqn:Hx|].
  - assert (Hin : k ∈ keys_to_remove now (entries c)) by (apply Hk; by exists en).
    repeat case_decide; first [by split | contradiction].
  - assert (Hin : k ∉ keys_to_remove now (entries c))
      by (rewrite Hk; intros [en' [H1 H2]]; congruence).
    repeat case_decide; first [by split | contradiction].
  - assert (Hin : k ∉ keys_to_remove now (entries c))
      by (rewrite Hk; intros [en' [H1 H2]]; congruence).
    repeat case_decide; first [by split | contradiction].
Qed.

Lemma sweep_other_fields (now : Z) (c : Cache) :
  save_flag (sweep now c).2 = save_flag c /\ cache_file (sweep now c).2 = cache_file c.
Proof.
  unfold sweep, remove_keys. simpl. generalize (keys_to_remove now (entries c)).
  intros ks. revert c. induction ks as [|k ks IH]; intros c; simpl; [done|].
  by destruct (IH (set_vals_entries (delete k (vals c)) (delete k (entries c)) c)) as [-> ->].
Qed.

(** ** The store invariant *)

(** What holds of the two maps: the same keys, and an entry whose payload
    is the first 56 bytes of the raw value and whose expiry is its creation
    time plus the raw value's offset (none for offset 0). *)
Definition entry_agrees (v : raw) (en : CacheEntry) : Prop :=
  value en = slice 0 56 v /\
  expires_at en = (if 0 <? raw_offset v then Some (created_at en + raw_offset v) else None).

Definition store_inv (c : Cache) : Prop :=
  (forall k, is_Some (vals c !! k) <-> is_Some (entries c !! k)) /\
  (forall k v en, vals c !! k = Some v -> entries c !! k = Some en -> entry_agrees v en).

#[global] Instance entry_agrees_dec (v : raw) (en : CacheEntry) : Decision (entry_agrees v en).
Proof. unfold entry_agrees. apply _. Defined.

(** An executable check of [store_inv]. *)
Definition store_inv_b (c : Cache) : bool :=
  forallb (fun kv => match entries c !! kv.1 with
                     | Some en => bool_decide (entry_agrees kv.2 en)
                     | None => false
                     end) (map_to_list (vals c)) &&
  forallb (fun ke => bool_decide (is_Some (vals c !! ke.1))) (map_to_list (entries c)).

Lemma store_inv_b_sound (c : Cache) : store_inv_b c = true -> store_inv c.
Proof.
  unfold store_inv_b. rewrite andb_true_iff, !forallb_forall. intros [Hv He]. split.
  - intros k. split.
    + intros [v Hk]. apply elem_of_map_to_list in Hk. apply list_elem_of_In in Hk.
      specialize (Hv _ Hk). simpl in Hv. destruct (entries c !! k); [by eexists|done].
    + intros [en Hk]. apply elem_of_map_to_list in Hk. apply list_elem_of_In in Hk.
      specialize (He _ Hk). simpl in He. by apply bool_decide_eq_true in He.
  - intros k v en Hk Hen. apply elem_of_map_to_list in Hk. apply list_elem_of_In in Hk.
    specialize (Hv _ Hk). simpl in Hv. rewrite Hen in Hv.
    by apply bool_decide_eq_true in Hv.
Qed.





Lemma add_seconds_some (t d x : Z) : add_seconds t d = Some x -> x = t + d.
Proof. unfold add_seconds. destruct (_ <=? _); congruence. Qed.



(** A consistent two-entry cache: [K1] as inserted at time 1000 and [K2]
    with a never-expiring value. *)
Definition r2 : raw := mk_raw Byte.x04 0 0.
Definition e2 : CacheEntry := mkEntry (repeat Byte.x04 56) 500 None.
Definition st_K12 : Cache :=
  set_vals_entries (<[K2 := r2]> {[K1 := r1]}) (<[K2 := e2]> {[K1 := e1]}) cache_new.




(** An entry that never expires survives any series of sweeps. *)
Lemma sweeps_keep_never (ts : list Z) (c : Cache) (k : key) (v : raw) (en : CacheEntry) :
  vals c !! k = Some v -> entries c !! k = Some en -> expires_at en = None ->
  vals (sweeps ts c) !! k = Some v /\ entries (sweeps ts c) !! k = Some en.
Proof.
  unfold sweeps. revert c. induction ts as [|t ts IH]; intros c Hv He Hx;
    cbn [fold_left]; [done|].
  apply IH; [| |done]; destruct (sweep_lookup t c k) as [E1 E2];
    rewrite ?E1, ?E2, He; unfold entry_expired; by rewrite Hx.
Qed.

(** The expiry scan of [tasks.rs]. *)

Lemma fold_delete_lookup (ks : list key) (m : gmap key raw) (k : key) :
  fold_left (fun m k => delete k m) ks m !! k = if decide (k ∈ ks) then None else m !! k.
Proof.
  revert m. induction ks as [|k0 ks IH]; intros m; cbn [fold_left].
  - destruct (decide (k ∈ [])) as [H|]; [by apply not_elem_of_nil in H|done].
  - rewrite IH. destruct (decide (k ∈ ks)), (decide (k ∈ k0 :: ks)); try done.
    + exfalso. apply n. by apply elem_of_cons; right.
    + apply elem_of_cons in e as [->|]; [|done]. by rewrite lookup_delete_eq.
    + rewrite lookup_delete_ne; [done|]. intros ->. apply n0. by apply elem_of_cons; left.
Qed.

Lemma tasks_scan_in (clock : nat -> Z) (i : nat) (l : list (key * raw)) (k : key) :
  k ∈ tasks_scan clock i l -> exists v j, (k, v) ∈ l /\ tasks_expire_timestamp v < clock j.
Proof.
  revert i. induction l as [|[k0 v0] l IH]; intros i; cbn [tasks_scan].
  - by intros ?%not_elem_of_nil.
  - destruct (Z.ltb_spec (tasks_expire_timestamp v0) (clock i)) as [Hlt|_].
    + intros [->|Hin]%elem_of_cons.
      * exists v0, i. split; [by apply elem_of_cons; left|done].
      * destruct (IH (S i) Hin) as (v & j & Hv & Hj). exists v, j.
        split; [by apply elem_of_cons; right|done].
    + intros Hin. destruct (IH (S i) Hin) as (v & j & Hv & Hj). exists v, j.
      split; [by apply elem_of_cons; right|done].
Qed.

Lemma tasks_scan_lo (clock : nat -> Z) (lo : Z) (i : nat) (l : list (key * raw)) (k : key) (v : raw) :
  (forall j, lo <= clock j) -> (k, v) ∈ l -> tasks_expire_timestamp v < lo ->
  k ∈ tasks_scan clock i l.
Proof.
  intros Hlo. revert i. induction l as [|[k0 v0] l IH]; intros i Hin Hx; cbn [tasks_scan].
  - by apply not_elem_of_nil in Hin.
  - apply elem_of_cons in Hin as [[= <- <-]|Hin].
    + pose proof (Hlo i). destruct (Z.ltb_spec (tasks_expire_timestamp v) (clock i)); [|lia].
      by apply elem_of_cons; left.
    + destruct (tasks_expire_timestamp v0 <? clock i); [apply elem_of_cons; right|]; by apply IH.
Qed.

Lemma tasks_invalidate_removes (clock : nat -> Z) (lo : Z) (kv : gmap key raw) (k : key) (v : raw) :
  (forall j, lo <= clock j) -> kv !! k = Some v -> tasks_expire_timestamp v < lo ->
  tasks_invalidate_cache clock kv !! k = None.
Proof.
  intros Hc Hv Hx. unfold tasks_invalidate_cache. rewrite fold_delete_lookup.
  destruct (decide _) as [|n]; [done|]. exfalso. apply n.
  apply (tasks_scan_lo clock lo 0 _ k v Hc); [by apply elem_of_map_to_list|done].
Qed.

(** Claim C5. A sweep of [main.rs] at time [t] removes from both maps
    exactly the keys whose entry has an expiry at or before [t]; for a
    consistent store that expiry is set exactly when the raw offset is
    non-zero and is [created_at] plus the offset. An entry inserted with
    offset 0 stays in both maps through any later sweeps of [main.rs]; the
    expiry scan of [tasks.rs] removes its raw value once every clock reading
    of the scan is past the value's own timestamp field. *)
Theorem C5_sweep_removes_expired :
  (forall (t : Z) (c : Cache) (k : key),
     entries (sweep t c).2 !! k =
       match entries c !! k with
       | Some en => if entry_expired t en then None else Some en
       | None => None
       end /\
     vals (sweep t c).2 !! k =
       match entries c !! k with
       | Some en => if entry_expired t en then None else vals c !! k
       | None => vals c !! k
       end) /\
  (forall (t : Z) (c : Cache) (k : key) (v : raw) (en : CacheEntry),
     store_inv c -> vals c !! k = Some v -> entries c !! k = Some en ->
     entry_expired t en = (0 <? raw_offset v) && (created_at en + raw_offset v <=? t)) /\
  (forall (e : env) (input : list Byte.byte) (c : Cache),
     opcode input = b_I -> is_empty_key (key_slice input) = false ->
     now e + 65535 <= max_timestamp -> raw_offset (value_slice input) = 0 ->
     exists c', handle_in e input c = Some ([b_I; b_NL], c') /\
       (forall ts : list Z,
          vals (sweeps ts c') !! key_slice input = Some (value_slice input) /\
          is_Some (entries (sweeps ts c') !! key_slice input)) /\
       (forall clock : nat -> Z,
          (forall i, raw_timestamp (value_slice input) < clock i) ->
          tasks_invalidate_cache clock (vals c') !! key_slice input = None)).
Proof.
  split; [|split].
  - apply sweep_lookup.
  - intros t c k v en [_ Hag] Hv He. destruct (Hag k v en Hv He) as [_ Hx].
    unfold entry_expired. rewrite Hx. by destruct (0 <? raw_offset v).
  - intros e input c Hop Hk Hnow Hoff.
    rewrite handle_in_insert, insert_path_spec by done.
    eexists. split; [reflexivity|]. split.
    + intros ts.
      edestruct (sweeps_keep_never ts) as [H1 H2]; [| | |split; [exact H1 | rewrite H2; by eexists]].
      * simpl. by rewrite lookup_insert_eq.
      * simpl. by rewrite lookup_insert_eq.
      * simpl. by rewrite Hoff.
    + intros clock Hclk. cbn [vals set_save_flag set_vals_entries].
      apply (tasks_invalidate_removes clock (raw_timestamp (value_slice input) + 1) _ _
               (value_slice input)); [|by rewrite lookup_insert_eq|].
      * intros j. specialize (Hclk j). lia.
      * unfold tasks_expire_timestamp, be_i16. fold (raw_offset (value_slice input)).
        rewrite Hoff. simpl. lia.
Qed.

Lemma C5_sweep_removes_expired_witness :
  store_inv_b st_K12 = true /\
  entry_expired 5000 e1 = (0 <? raw_offset r1) && (created_at e1 + raw_offset r1 <=? 5000) /\
  exists c', handle_in (mkEnv 1000 io_full) (frame b_I K2 r2) cache_new = Some ([b_I; b_NL], c') /\
    (forall ts : list Z,
       vals (sweeps ts c') !! key_slice (frame b_I K2 r2) = Some (value_slice (frame b_I K2 r2)) /\
       is_Some (entries (sweeps ts c') !! key_slice (frame b_I K2 r2))) /\
    (forall clock : nat -> Z,
       (forall i, raw_timestamp (value_slice (frame b_I K2 r2)) < clock i) ->
       tasks_invalidate_cache clock (vals c') !! key_slice (frame b_I K2 r2) = None).
Proof.
  assert (H : store_inv_b st_K12 = true) by (vm_compute; reflexivity).
  destruct C5_sweep_removes_expired as (_ & H2 & H3).
  split; [exact H|]. split.
  - apply (H2 5000 st_K12 K1); [exact (store_inv_b_sound _ H) | vm_compute; reflexivity |
                                 vm_compute; reflexivity].
  - apply H3; [reflexivity | vm_compute; reflexivity | vm_compute; discriminate |
               vm_compute; reflexivity].
Defined.

(** Claim C5, the offset-0 clause against the scan of [tasks.rs]: a value
    inserted at time 1000 with offset 0 and timestamp field 900 stays in both
    maps through sweeps of [main.rs] at 5000 and 100000, but the scan of
    [tasks::invalidate_cache] with the clock at 1000 removes it from the
    raw-value map (and leaves the entry map, which it does not touch). *)
Lemma C5_tasks_scan_removes_zero_offset_cex :
  option_map (fun p =>
      (match vals (sweeps [5000; 100000] p.2) !! K1 with Some _ => true | None => false end,
       match tasks_invalidate_cache (fun _ => 1000) (vals p.2) !! K1 with
       | Some _ => true | None => false end,
       match entries p.2 !! K1 with Some _ => true | None => false end))
    (handle_in (mkEnv 1000 io_full) (frame b_I K1 (mk_raw Byte.x03 900 0)) cache_new)
  = Some (true, false, true).
Proof. vm_compute. reflexivity. Qed.

(** Claim C6. A second sweep at the same time removes nothing and leaves the
    cache as the first one left it. *)
Theorem C6_sweep_idempotent (t : Z) (c : Cache) :
  sweep t (sweep t c).2 = (0%nat, (sweep t c).2).
Proof.
  assert (Hnil : keys_to_remove t (entries (sweep t c).2) = []).
  { apply elem_of_nil_inv. intros k Hk.
    apply elem_of_keys_to_remove in Hk as [en [He Hx]].
    destruct (sweep_lookup t c k) as [Hl _]. rewrite Hl in He.
    destruct (entries c !! k) as [en0|]; [|discriminate].
    destruct (entry_expired t en0) eqn:Hx0; [discriminate|]. congruence. }
  unfold sweep at 1. rewrite Hnil. reflexivity.
Qed.

(** Scenario A of the spec, at the level of the sweep: [K1] (expiry 4600)
    is gone after a sweep at 4601, and a second sweep removes nothing. *)
Example sweep_scenario_example :
  (sweep 4601 st_K12).1 = 1%nat /\
  vals (sweep 4601 st_K12).2 !! K1 = None /\
  vals (sweep 4601 st_K12).2 !! K2 = Some r2 /\
  (sweep 4601 (sweep 4601 st_K12).2).1 = 0%nat.
Proof. vm_compute. repeat split. Qed.

(** ** Claims about the save path *)

(** Claim C10. [clean_up] issues one [file.write(&buffer)] and, when
    [File::create], that write and [flush] return [Ok], clears the dirty flag
    even if the write took only [n < buffer.len()] bytes: the file then holds
    only the first [n] bytes of the buffer. *)
Theorem C10_short_write_clears_flag (t : Z) (c : Cache) (buffer : list Byte.byte) (n : nat) :
  serialize t (map_to_list (vals c)) = Some buffer -> (n < length buffer)%nat ->
  exists c', clean_up t (mkIo true (Some n) true) c = Some (true, c') /\
    save_flag c' = false /\ cache_file c' = firstn n buffer /\
    (length (cache_file c') < length buffer)%nat.
Proof.
  intros Hs Hn. unfold clean_up. simpl. rewrite Hs.
  eexists. split; [reflexivity|]. simpl. split; [done|]. split; [done|].
  rewrite length_firstn. lia.
Qed.

Lemma C10_short_write_clears_flag_witness :
  match serialize 1000 (map_to_list (vals st_K12)) with
  | Some buffer =>
      (10 < length buffer)%nat /\
      exists c', clean_up 1000 (mkIo true (Some 10%nat) true) st_K12 = Some (true, c') /\
        save_flag c' = false /\ cache_file c' = firstn 10 buffer /\
        (length (cache_file c') < length buffer)%nat
  | None => False
  end.
Proof.
  destruct (serialize 1000 (map_to_list (vals st_K12))) as [buffer|] eqn:Hs.
  - assert (Hl : length buffer = 254%nat).
    { pose proof (f_equal (option_map (@length Byte.byte)) Hs) as Hlen.
      vm_compute in Hlen. by injection Hlen. }
    assert (H10 : (10 < length buffer)%nat) by (rewrite Hl; lia).
    split; [exact H10|]. exact (C10_short_write_clears_flag 1000 st_K12 buffer 10 Hs H10).
  - vm_compute in Hs. discriminate.
Defined.

(** A raw value whose timestamp field is chrono's last representable second
    and whose offset is 1 second. *)
Definition r_max : raw := mk_raw Byte.x02 max_timestamp 1.

(** Claim C7: an ['I'] frame carrying [r_max] is accepted (the entry is
    stamped with the current time), and the save of an ['H'] frame that
    follows panics: [created_at + TimeDelta::try_seconds(1)] leaves chrono's
    range. [File::create] has already truncated the cache file, so no
    (key, raw_value) pair is left to load. *)
Theorem C7_save_panics_near_max_time :
  match handle_in (mkEnv 1000 io_full) (frame b_I K1 r_max) cache_new with
  | Some (out, c1) =>
      out = [b_I; b_NL] /\ vals c1 !! K1 = Some r_max /\
      decode_created 1000 r_max = max_timestamp /\
      clean_up 1000 io_full c1 = None /\
      handle_in (mkEnv 1000 io_full) (frame b_H K1 r_max) c1 = None
  | None => False
  end.
Proof. vm_compute. repeat split. Qed.

(** ** The save/load round trip, away from chrono's bound *)

Lemma serialize_concat (t : Z) (l : list (key * raw)) (buf : list Byte.byte) :
  serialize t l = Some buf ->
  buf = concat (map encode_record (filter (fun kv => save_keep t kv.1 kv.2 = Some true) l)) /\
  Forall (fun kv => save_keep t kv.1 kv.2 <> None) l.
Proof.
  revert buf. induction l as [|[k v] l IH]; intros buf; simpl.
  - intros [= <-]. done.
  - destruct (save_keep t k v) as [[|]|] eqn:Hk; [| |discriminate].
    + destruct (serialize t l) as [b|] eqn:Hs; [|discriminate]. intros [= <-].
      destruct (IH b eq_refl) as [-> Hf].
      rewrite filter_cons_True by exact Hk. simpl. split; [unfold encode_record; simpl; by rewrite app_assoc|].
      constructor; [|done]. simpl. by rewrite Hk.
    + intros Hs. destruct (IH buf Hs) as [-> Hf].
      rewrite filter_cons_False by (simpl; rewrite Hk; discriminate). split; [done|].
      constructor; [|done]. simpl. by rewrite Hk.
Qed.

Lemma length_le_concat (ps : list (list Byte.byte)) :
  Forall (fun p => length p = 127%nat) ps -> (length ps <= length (concat ps))%nat.
Proof.
  induction 1 as [|p ps Hp _ IH]; simpl; [lia|].
  rewrite length_app. lia.
Qed.

Lemma chunks_fuel_concat (fuel : nat) (ps : list (list Byte.byte)) :
  Forall (fun p => length p = 127%nat) ps -> (length ps <= fuel)%nat ->
  chunks_fuel fuel (concat ps) = ps.
Proof.
  intros Hps. revert fuel. induction Hps as [|p ps Hp _ IH]; intros fuel Hf.
  - by destruct fuel.
  - destruct fuel as [|f]; simpl in Hf; [lia|]. simpl.
    rewrite length_app, Hp.
    destruct (Nat.ltb_spec (127 + length (concat ps)) 127); [lia|].
    rewrite <- Hp, take_app_length, drop_app_length, IH by lia. done.
Qed.

Lemma chunks_exact_concat (ps : list (list Byte.byte)) :
  Forall (fun p => length p = 127%nat) ps -> chunks_exact (concat ps) = ps.
Proof.
  intros Hps. unfold chunks_exact. apply chunks_fuel_concat; [done|].
  by apply length_le_concat.
Qed.

Lemma slices_of_record (k : key) (v : raw) :
  length k = 63%nat -> length v = 64%nat ->
  slice 0 63 (k ++ v) = k /\ slice 63 127 (k ++ v) = v.
Proof.
  intros Hk Hv. unfold slice. simpl. split.
  - rewrite skipn_O, firstn_app, Hk, Nat.sub_diag, firstn_O, app_nil_r.
    apply firstn_all2. lia.
  - rewrite skipn_app, Hk, Nat.sub_diag, skipn_O, skipn_all2 by lia.
    apply firstn_all2. lia.
Qed.

Lemma load_chunk_vals (t : Z) (vs : gmap key raw) (es : gmap key CacheEntry)
    (k : key) (v : raw) (vs1 : gmap key raw) (es1 : gmap key CacheEntry) :
  length k = 63%nat -> length v = 64%nat ->
  load_chunk t (vs, es) (k ++ v) = Some (vs1, es1) ->
  vs1 = if load_accepts t k v then <[k:=v]> vs else vs.
Proof.
  intros Hk Hv. unfold load_chunk. destruct (slices_of_record k v Hk Hv) as [-> ->].
  unfold load_accepts, expired_raw.
  destruct (is_empty_key k); simpl; [by intros [= <- _]|].
  destruct (decode_expires t v) as [[x|]|]; [| |discriminate].
  - destruct (x <=? t); simpl; by intros [= <- _].
  - by intros [= <- _].
Qed.

Lemma load_chunks_vals (t : Z) (l : list (key * raw)) (vs : gmap key raw)
    (es : gmap key CacheEntry) (vs' : gmap key raw) (es' : gmap key CacheEntry) :
  Forall (fun kv => length kv.1 = 63%nat /\ length kv.2 = 64%nat) l ->
  load_chunks t (vs, es) (map encode_record l) = Some (vs', es') ->
  vs' = load_vals t l vs.
Proof.
  intros Hl. revert vs es. induction Hl as [|[k v] l [Hk Hv] _ IH]; intros vs es; simpl.
  - by intros [= <- _].
  - simpl in Hk, Hv. change (encode_record (k, v)) with (k ++ v).
    destruct (load_chunk t (vs, es) (k ++ v)) as [[vs1 es1]|] eqn:Hc; [|discriminate].
    intros Hr. apply load_chunk_vals in Hc; [|done|done].
    rewrite <- Hc. by apply (IH vs1 es1).
Qed.

Lemma load_vals_keep (t : Z) (l : list (key * raw)) (m : gmap key raw) (k : key) (v : raw) :
  (forall v', (k, v') ∈ l -> v' = v) -> m !! k = Some v -> load_vals t l m !! k = Some v.
Proof.
  unfold load_vals. revert m. induction l as [|[k0 v0] l IH]; intros m Hf Hm; simpl; [done|].
  apply IH; [intros v' Hin; apply Hf; set_solver|].
  destruct (load_accepts t k0 v0); [|done].
  destruct (decide (k0 = k)) as [->|Hne].
  - rewrite lookup_insert_eq. f_equal. apply Hf. set_solver.
  - by rewrite lookup_insert_ne.
Qed.

Lemma load_vals_in (t : Z) (l : list (key * raw)) (m : gmap key raw) (k : key) (v : raw) :
  (forall v', (k, v') ∈ l -> v' = v) -> (k, v) ∈ l -> load_accepts t k v = true ->
  load_vals t l m !! k = Some v.
Proof.
  unfold load_vals. revert m. induction l as [|[k0 v0] l IH]; intros m Hf Hin Ha; simpl.
  - set_solver.
  - apply elem_of_cons in Hin as [[= -> ->]|Hin].
    + rewrite Ha. apply load_vals_keep; [intros v' Hv'; apply Hf; set_solver|].
      apply lookup_insert_eq.
    + apply IH; [intros v' Hv'; apply Hf; set_solver | done | done].
Qed.

Lemma load_vals_out (t : Z) (l : list (key * raw)) (m : gmap key raw) (k : key) :
  (forall v, (k, v) ∈ l -> load_accepts t k v = false) -> load_vals t l m !! k = m !! k.
Proof.
  unfold load_vals. revert m. induction l as [|[k0 v0] l IH]; intros m Hf; simpl; [done|].
  rewrite IH by (intros v Hv; apply Hf; set_solver).
  destruct (load_accepts t k0 v0) eqn:Ha; [|done].
  destruct (decide (k0 = k)) as [->|Hne].
  - rewrite Hf in Ha; [discriminate | set_solver].
  - by rewrite lookup_insert_ne.
Qed.

(** A record dropped by the save because it has expired is expired at any
    later load as well. *)
Lemma save_drop_expired (ts tl : Z) (k : key) (v : raw) :
  ts <= tl -> is_empty_key k = false -> save_keep ts k v = Some false ->
  expired_raw tl v = true.
Proof.
  intros Hle Hk. unfold save_keep, expired_raw, decode_expires. rewrite Hk.
  destruct (0 <? raw_offset v) eqn:Hoff; [|discriminate].
  apply Z.ltb_lt in Hoff. unfold decode_created.
  destruct (from_timestamp (raw_timestamp v)) as [t0|].
  - destruct (add_seconds t0 (raw_offset v)) as [x|]; [|discriminate].
    intros [= Hx]. apply negb_false_iff, Z.leb_le in Hx. apply Z.leb_le. lia.
  - destruct (add_seconds ts (raw_offset v)) as [x|] eqn:Ha; [|discriminate].
    apply add_seconds_some in Ha. intros [= Hx]. apply negb_false_iff, Z.leb_le in Hx. lia.
Qed.

Lemma load_new_vals (t : Z) (buf : list Byte.byte) (c2 : Cache) :
  load t (set_file buf cache_new) = Some c2 ->
  load_chunks t (∅, ∅) (chunks_exact buf) = Some (vals c2, entries c2).
Proof.
  unfold load. simpl. destruct buf as [|b buf].
  - by intros [= <-].
  - destruct (load_chunks t (∅, ∅) (chunks_exact (b :: buf))) as [[vs es]|]; [|discriminate].
    by intros [= <-].
Qed.

(** Saving at [ts] and loading the file into a fresh cache at [tl >= ts]
    gives back exactly the raw-value pairs with a non-zero key that are not
    expired at [tl], whenever neither the save nor the load panics. *)
Lemma save_load_roundtrip (ts tl : Z) (c : Cache) (buf : list Byte.byte) (c2 : Cache) :
  store_wf c -> ts <= tl ->
  serialize ts (map_to_list (vals c)) = Some buf ->
  load tl (set_file buf cache_new) = Some c2 ->
  forall k, vals c2 !! k =
    match vals c !! k with
    | Some v => if load_accepts tl k v then Some v else None
    | None => None
    end.
Proof.
  intros Hwf Hle Hs Hl k.
  apply serialize_concat in Hs as [Hbuf Hnp].
  set (l' := filter (fun kv => save_keep ts kv.1 kv.2 = Some true) (map_to_list (vals c))) in *.
  assert (Hin : forall k0 v0, (k0, v0) ∈ l' <->
                  vals c !! k0 = Some v0 /\ save_keep ts k0 v0 = Some true).
  { intros k0 v0. unfold l'. rewrite list_elem_of_filter, elem_of_map_to_list. simpl. tauto. }
  assert (Hlen : Forall (fun kv => length kv.1 = 63%nat /\ length kv.2 = 64%nat) l').
  { apply Forall_forall. intros [k0 v0] H.
    apply Hin in H as [H _]. by apply Hwf in H. }
  apply load_new_vals in Hl. rewrite Hbuf, chunks_exact_concat in Hl.
  2:{ apply Forall_map. eapply Forall_impl; [exact Hlen|].
      intros [k0 v0] [H1 H2]. unfold encode_record. simpl in *. rewrite length_app. lia. }
  apply load_chunks_vals in Hl; [|done]. rewrite Hl.
  assert (Hfun : forall v v', vals c !! k = Some v -> (k, v') ∈ l' -> v' = v).
  { intros v v' Hv H. apply Hin in H as [H _]. congruence. }
  destruct (vals c !! k) as [v|] eqn:Hv.
  - destruct (load_accepts tl k v) eqn:Ha.
    + apply load_vals_in; [intros v'; by apply Hfun| |done].
      apply Hin. split; [done|].
      assert (Hne : save_keep ts k v <> None).
      { rewrite Forall_forall in Hnp. apply (Hnp (k, v)).
        apply elem_of_map_to_list, Hv. }
      unfold load_accepts in Ha. apply andb_true_iff in Ha as [Hk Hx].
      apply negb_true_iff in Hk, Hx.
      destruct (save_keep ts k v) as [[|]|] eqn:Hsk; [done| |done].
      by rewrite (save_drop_expired ts tl k v Hle Hk Hsk) in Hx.
    + rewrite load_vals_out; [done|]. intros v' H. by rewrite (Hfun v v' eq_refl H).
  - rewrite load_vals_out; [done|]. intros v' H. apply Hin in H as [H _]. congruence.
Qed.

(** The round trip on the two-entry cache, saved at 1000 and loaded at 2000. *)
Example roundtrip_example :
  match serialize 1000 (map_to_list (vals st_K12)) with
  | Some buf =>
      match load 2000 (set_file buf cache_new) with
      | Some c2 => vals c2 !! K1 = Some r1 /\ vals c2 !! K2 = Some r2 /\
                   vals (sweep 2000 c2).2 !! K1 = Some r1
      | None => False
      end
  | None => False
  end.
Proof. vm_compute. repeat split. Qed.

(** ** Batches and the input loops *)

Lemma count_op_file (c : Cache) : cache_file (count_op c) = cache_file c.
Proof. unfold count_op. by destruct (Nat.leb _ _). Qed.

(** One call moves the counter one step along its cycle [0 .. threshold]. *)
Lemma count_op_cycle (c : Cache) (m : nat) :
  (ops_since_invalidation c <= invalidation_threshold c)%nat ->
  (ops_since_invalidation (count_op c) <= invalidation_threshold c)%nat /\
  ((ops_since_invalidation (count_op c) + m) mod S (invalidation_threshold c) =
    (ops_since_invalidation c + S m) mod S (invalidation_threshold c))%nat /\
  (pending_sweeps (count_op c) +
     (ops_since_invalidation (count_op c) + m) / S (invalidation_threshold c) =
   pending_sweeps c + (ops_since_invalidation c + S m) / S (invalidation_threshold c))%nat.
Proof.
  intros H. unfold count_op.
  destruct (Nat.leb_spec (invalidation_threshold c) (ops_since_invalidation c)) as [Hle|Hlt];
    cbn [set_counter ops_since_invalidation pending_sweeps invalidation_threshold].
  - assert (E : ops_since_invalidation c = invalidation_threshold c) by lia. rewrite E.
    replace (invalidation_threshold c + S m)%nat
      with (m + 1 * S (invalidation_threshold c))%nat by lia.
    rewrite Nat.add_0_l, Nat.Div0.mod_add, Nat.div_add by lia. lia.
  - replace (S (ops_since_invalidation c) + m)%nat
      with (ops_since_invalidation c + S m)%nat by lia. lia.
Qed.

Lemma counter_start (o t p : nat) :
  (o <= t)%nat -> (o = (o + 0) mod S t)%nat /\ p = (p + (o + 0) / S t)%nat.
Proof.
  intros H. rewrite Nat.add_0_r, Nat.mod_small, Nat.div_small by lia. lia.
Qed.

(** A frame whose first byte is none of ['G'], ['I'], ['R'], ['H'] writes
    nothing and only counts. *)
Lemma handle_in_unknown (e : env) (input : list Byte.byte) (c : Cache) :
  Byte.eqb (opcode input) b_G = false -> Byte.eqb (opcode input) b_I = false ->
  Byte.eqb (opcode input) b_R = false -> Byte.eqb (opcode input) b_H = false ->
  handle_in e input c = Some ([], count_op c).
Proof.
  intros HG HI HR HH. unfold handle_in. rewrite HG, HI, HR, HH. simpl.
  by rewrite andb_false_r.
Qed.

Lemma handle_all_counters (inputs : list (env * list Byte.byte)) (c c' : Cache)
    (out : list Byte.byte) :
  (ops_since_invalidation c <= invalidation_threshold c)%nat ->
  handle_all inputs c = Some (out, c') ->
  invalidation_threshold c' = invalidation_threshold c /\
  (ops_since_invalidation c' =
    (ops_since_invalidation c + length inputs) mod S (invalidation_threshold c))%nat /\
  pending_sweeps c' =
    (pending_sweeps c + (ops_since_invalidation c + length inputs) /
                          S (invalidation_threshold c))%nat.
Proof.
  revert c out. induction inputs as [|[e input] r IH]; intros c out Hle; cbn [handle_all length].
  - intros [= _ <-]. split; [done|]. by apply counter_start.
  - destruct (handle_in e input c) as [[o c1]|] eqn:Hh; [|discriminate].
    destruct (handle_all r c1) as [[o' c2]|] eqn:Hr; [|discriminate].
    intros [= _ <-].
    destruct (handle_in_counters _ _ _ _ _ Hh) as (Ho & Hp & Ht).
    rewrite count_op_threshold in Ht.
    destruct (count_op_cycle c (length r) Hle) as (Hle' & Hmod & Hdiv).
    destruct (IH c1 o') as (Ht2 & Ho2 & Hp2); [lia|done|].
    rewrite Ht2, Ho2, Hp2, Ht, Ho, Hp. split; [done|]. split; [done|]. lia.
Qed.

Lemma handle_in_vals_ir (e : env) (input : list Byte.byte) (c c1 : Cache) (o : list Byte.byte) :
  opcode input = b_I \/ opcode input = b_R ->
  handle_in e input c = Some (o, c1) ->
  vals c1 =
    (if Byte.eqb (opcode input) b_R then delete (key_slice input) (vals c)
     else if is_empty_key (key_slice input) then vals c
     else <[key_slice input := value_slice input]> (vals c)).
Proof.
  intros [Hop|Hop].
  - rewrite Hop. simpl. unfold handle_in. rewrite Hop. simpl.
    destruct (is_empty_key (key_slice input)); simpl.
    + intros [= _ <-]. apply count_op_vals.
    + unfold insert_path. destruct (0 <? _).
      * destruct (add_seconds _ _); [|discriminate]. intros [= _ <-]. simpl.
        by rewrite count_op_vals.
      * intros [= _ <-]. simpl. by rewrite count_op_vals.
  - rewrite handle_in_remove by done. rewrite Hop. simpl.
    intros [= _ <-]. simpl. by rewrite count_op_vals.
Qed.

Lemma handle_all_vals (inputs : list (env * list Byte.byte)) (c c' : Cache)
    (out : list Byte.byte) :
  Forall (fun ei => opcode ei.2 = b_I \/ opcode ei.2 = b_R) inputs ->
  handle_all inputs c = Some (out, c') ->
  vals c' = batch_vals (map snd inputs) (vals c).
Proof.
  intros Hf. revert c out. induction Hf as [|[e input] r Hop _ IH]; intros c out; simpl.
  - by intros [= _ <-].
  - destruct (handle_in e input c) as [[o c1]|] eqn:Hh; [|discriminate].
    destruct (handle_all r c1) as [[o' c2]|] eqn:Hr; [|discriminate].
    intros [= _ <-]. rewrite (IH c1 o' Hr).
    unfold batch_vals. simpl. f_equal. by apply (handle_in_vals_ir e input c c1 o).
Qed.

(** [handle_batch] on ['I'] and ['R'] frames leaves the raw-value map that
    the inserts and removes give when applied one after the other (an
    insert with an all-zero key is skipped), and always sets the dirty
    flag. *)
Theorem handle_batch_vals (inputs : list (env * list Byte.byte)) (c c' : Cache)
    (out : list Byte.byte) :
  Forall (fun ei => opcode ei.2 = b_I \/ opcode ei.2 = b_R) inputs ->
  handle_batch inputs c = Some (out, c') ->
  vals c' = batch_vals (map snd inputs) (vals c) /\ save_flag c' = true.
Proof.
  intros Hf. unfold handle_batch.
  destruct (handle_all inputs c) as [[o c1]|] eqn:Hh; [|discriminate].
  intros [= _ <-]. simpl. split; [|done]. by apply (handle_all_vals inputs c c1 o).
Qed.

Lemma handle_batch_vals_witness :
  match handle_batch batch3 cache_new with
  | Some (out, c') =>
      Forall (fun ei => opcode ei.2 = b_I \/ opcode ei.2 = b_R) batch3 /\
      vals c' = batch_vals (map snd batch3) (vals cache_new) /\ save_flag c' = true
  | None => False
  end.
Proof.
  assert (Hf : Forall (fun ei => opcode ei.2 = b_I \/ opcode ei.2 = b_R) batch3).
  { repeat constructor; left; reflexivity. }
  destruct (handle_batch batch3 cache_new) as [[out c']|] eqn:Hb.
  - split; [exact Hf|]. exact (handle_batch_vals batch3 cache_new c' out Hf Hb).
  - apply (f_equal (fun o => match o with Some _ => true | None => false end)) in Hb.
    vm_compute in Hb. discriminate.
Defined.

(** Over a batch, the operation counter runs through [0 .. threshold]: after
    [n] frames it stands at [(start + n) mod (threshold + 1)] and one sweep
    job has been scheduled each time it wrapped around, that is
    [(start + n) / (threshold + 1)] of them. *)
Theorem handle_batch_schedules_sweeps (inputs : list (env * list Byte.byte)) (c c' : Cache)
    (out : list Byte.byte) :
  (ops_since_invalidation c <= invalidation_threshold c)%nat ->
  handle_batch inputs c = Some (out, c') ->
  (ops_since_invalidation c' =
    (ops_since_invalidation c + length inputs) mod S (invalidation_threshold c))%nat /\
  pending_sweeps c' =
    (pending_sweeps c + (ops_since_invalidation c + length inputs) /
                          S (invalidation_threshold c))%nat.
Proof.
  intros Hle. unfold handle_batch.
  destruct (handle_all inputs c) as [[o c1]|] eqn:Hh; [|discriminate].
  intros [= _ <-]. simpl.
  destruct (handle_all_counters inputs c c1 o Hle Hh) as (_ & Ho & Hp). by split.
Qed.

Lemma handle_batch_schedules_sweeps_witness :
  match handle_batch batch3 (set_counter 99 0 cache_new) with
  | Some (out, c') =>
      (ops_since_invalidation (set_counter 99 0 cache_new) <=
         invalidation_threshold (set_counter 99 0 cache_new))%nat /\
      (ops_since_invalidation c' =
        (ops_since_invalidation (set_counter 99 0 cache_new) + length batch3)
          mod S (invalidation_threshold (set_counter 99 0 cache_new)))%nat /\
      pending_sweeps c' =
        (pending_sweeps (set_counter 99 0 cache_new) +
           (ops_since_invalidation (set_counter 99 0 cache_new) + length batch3) /
             S (invalidation_threshold (set_counter 99 0 cache_new)))%nat
  | None => False
  end.
Proof.
  assert (Hle : (ops_since_invalidation (set_counter 99 0 cache_new) <=
                   invalidation_threshold (set_counter 99 0 cache_new))%nat)
    by (apply Nat.leb_le; reflexivity).
  destruct (handle_batch batch3 (set_counter 99 0 cache_new)) as [[out c']|] eqn:Hb.
  - split; [exact Hle|].
    exact (handle_batch_schedules_sweeps batch3 (set_counter 99 0 cache_new) c' out Hle Hb).
  - apply (f_equal (fun o => match o with Some _ => true | None => false end)) in Hb.
    vm_compute in Hb. discriminate.
Defined.

Lemma buffer_thread_some (e : env) (data : list Byte.byte)
    (r : list (env * option (list Byte.byte))) (c : Cache) :
  buffer_thread ((e, Some data) :: r) c =
    match handle_in e (read_into (repeat Byte.x00 128) data) c with
    | None => None
    | Some (o, c1) =>
        match buffer_thread r c1 with
        | None => None
        | Some (o', c2) => Some (o ++ o', c2)
        end
    end.
Proof. reflexivity. Qed.

Lemma eof_frame_ignored (e : env) (c : Cache) :
  handle_in e (read_into (repeat Byte.x00 128) []) c = Some ([], count_op c).
Proof. by apply handle_in_unknown. Qed.

(** At the end of stdin every [read] of the buffer thread returns [Ok(0)],
    so the thread keeps passing an all-zero frame to [handle_in]: nothing
    is written and the maps, the dirty flag and the cache file stay as they
    are, while the counter keeps running and a sweep job is scheduled every
    [threshold + 1] iterations. *)
Theorem buffer_thread_at_eof (e : env) (m : nat) (c : Cache) :
  (ops_since_invalidation c <= invalidation_threshold c)%nat ->
  exists c', buffer_thread (repeat (e, Some []) m) c = Some ([], c') /\
    vals c' = vals c /\ entries c' = entries c /\ save_flag c' = save_flag c /\
    cache_file c' = cache_file c /\
    invalidation_threshold c' = invalidation_threshold c /\
    (ops_since_invalidation c' =
      (ops_since_invalidation c + m) mod S (invalidation_threshold c))%nat /\
    pending_sweeps c' =
      (pending_sweeps c + (ops_since_invalidation c + m) / S (invalidation_threshold c))%nat.
Proof.
  revert c. induction m as [|m IH]; intros c Hle.
  - exists c. destruct (counter_start (ops_since_invalidation c) (invalidation_threshold c)
                          (pending_sweeps c) Hle) as [E1 E2].
    by repeat split.
  - destruct (count_op_cycle c m Hle) as (Hle' & Hmod & Hdiv).
    rewrite <- (count_op_threshold c) in Hle'.
    destruct (IH (count_op c) Hle') as (c' & Hrun & Hv & He & Hs & Hf & Ht & Ho & Hp).
    exists c'.
    change (repeat (e, Some []) (S m)) with ((e, Some (@nil Byte.byte)) :: repeat (e, Some []) m).
    rewrite buffer_thread_some, eof_frame_ignored, Hrun. cbn [app].
    rewrite Hv, He, Hs, Hf, Ht, Ho, Hp, count_op_vals, count_op_entries,
      count_op_save_flag, count_op_file, !count_op_threshold.
    repeat split; lia.
Qed.

Lemma buffer_thread_at_eof_witness :
  (ops_since_invalidation cache_new <= invalidation_threshold cache_new)%nat /\
  exists c', buffer_thread (repeat (mkEnv 1000 io_full, Some []) 250) cache_new = Some ([], c') /\
    vals c' = vals cache_new /\ entries c' = entries cache_new /\
    save_flag c' = save_flag cache_new /\ cache_file c' = cache_file cache_new /\
    invalidation_threshold c' = invalidation_threshold cache_new /\
    (ops_since_invalidation c' =
      (ops_since_invalidation cache_new + 250) mod S (invalidation_threshold cache_new))%nat /\
    pending_sweeps c' =
      (pending_sweeps cache_new + (ops_since_invalidation cache_new + 250) /
                                    S (invalidation_threshold cache_new))%nat.
Proof.
  assert (Hle : (ops_since_invalidation cache_new <= invalidation_threshold cache_new)%nat)
    by (apply Nat.leb_le; reflexivity).
  split; [exact Hle|]. exact (buffer_thread_at_eof (mkEnv 1000 io_full) 250 cache_new Hle).
Defined.

Lemma key_slice_frame (b : Byte.byte) (k : key) (v : raw) :
  length k = 63%nat -> length v = 64%nat ->
  key_slice (frame b k v) = k /\ value_slice (frame b k v) = v.
Proof.
  intros Hk Hv. destruct (slices_of_record k v Hk Hv) as [E1 E2].
  split; [exact E1 | exact E2].
Qed.

(** [_read] reads into the shared [cur_buf]: a read of a single byte [b]
    after the frame [op :: k ++ v] gives the frame [b :: k ++ v], so the
    key and value of the previous frame are used again; a one-byte ['R']
    read removes the previous frame's key. *)
Theorem short_read_reuses_previous_frame (e : env) (op b : Byte.byte) (k : key) (v : raw)
    (c : Cache) :
  length k = 63%nat -> length v = 64%nat ->
  buffer_read (frame op k v) [b] = frame b k v /\
  handle_in e (buffer_read (frame op k v) [b_R]) c = Some (remove_path k (count_op c)).
Proof.
  intros Hk Hv.
  assert (E : forall b', buffer_read (frame op k v) [b'] = frame b' k v) by reflexivity.
  split; [apply E|]. rewrite E, handle_in_remove by reflexivity.
  by rewrite (proj1 (key_slice_frame b_R k v Hk Hv)).
Qed.

Lemma short_read_reuses_previous_frame_witness :
  length K1 = 63%nat /\ length r1 = 64%nat /\
  buffer_read (frame b_I K1 r1) [b_G] = frame b_G K1 r1 /\
  handle_in (mkEnv 1000 io_full) (buffer_read (frame b_I K1 r1) [b_R]) st_K1 =
    Some (remove_path K1 (count_op st_K1)).
Proof.
  assert (Hk : length K1 = 63%nat) by reflexivity.
  assert (Hv : length r1 = 64%nat) by reflexivity.
  split; [exact Hk|]. split; [exact Hv|].
  exact (short_read_reuses_previous_frame (mkEnv 1000 io_full) b_I b_G K1 r1 st_K1 Hk Hv).
Defined.

(** ** Saving, shutdown and startup *)

Lemma chunks_fuel_concat_tail (fuel : nat) (ps : list (list Byte.byte)) (tail : list Byte.byte) :
  Forall (fun p => length p = 127%nat) ps -> (length tail < 127)%nat ->
  (length ps <= fuel)%nat ->
  chunks_fuel fuel (concat ps ++ tail) = ps.
Proof.
  intros Hps Ht. revert fuel. induction Hps as [|p ps Hp _ IH]; intros fuel Hf.
  - destruct fuel as [|f]; [done|]. cbn [chunks_fuel concat app].
    destruct (Nat.ltb_spec (length tail) 127); [done|lia].
  - destruct fuel as [|f]; simpl in Hf; [lia|]. cbn [chunks_fuel concat].
    rewrite <- app_assoc, length_app, Hp.
    destruct (Nat.ltb_spec (127 + length (concat ps ++ tail)) 127); [lia|].
    rewrite firstn_app, Hp, Nat.sub_diag, firstn_O, app_nil_r, firstn_all2 by lia.
    rewrite skipn_app, Hp, Nat.sub_diag, skipn_O, skipn_all2 by lia.
    rewrite IH by lia. done.
Qed.

Lemma chunks_exact_concat_tail (ps : list (list Byte.byte)) (tail : list Byte.byte) :
  Forall (fun p => length p = 127%nat) ps -> (length tail < 127)%nat ->
  chunks_exact (concat ps ++ tail) = ps.
Proof.
  intros Hps Ht. unfold chunks_exact. apply chunks_fuel_concat_tail; [done|done|].
  rewrite length_app. pose proof (length_le_concat ps Hps). lia.
Qed.

Lemma records_127 (l : list (key * raw)) :
  Forall (fun kv => length kv.1 = 63%nat /\ length kv.2 = 64%nat) l ->
  Forall (fun p => length p = 127%nat) (map encode_record l).
Proof.
  intros Hl. apply Forall_map. eapply Forall_impl; [exact Hl|].
  intros [k v] [H1 H2]. unfold encode_record. simpl in *. rewrite length_app. lia.
Qed.

(** The entry [load] builds for a raw value it keeps: the payload, the
    decoded creation time and the decoded expiry. *)
Definition load_entry (now : Z) (v : raw) : CacheEntry :=
  mkEntry (slice 0 56 v) (decode_created now v)
    (match decode_expires now v with Some x => x | None => None end).

Lemma load_chunk_entries (t : Z) (vs vs' : gmap key raw) (es es' : gmap key CacheEntry)
    (ch : list Byte.byte) :
  (forall k, es !! k = option_map (load_entry t) (vs !! k)) ->
  load_chunk t (vs, es) ch = Some (vs', es') ->
  forall k, es' !! k = option_map (load_entry t) (vs' !! k).
Proof.
  intros Hes. unfold load_chunk. cbv zeta.
  destruct (is_empty_key (slice 0 63 ch)); [by intros [= <- <-]|].
  destruct (decode_expires t (slice 63 127 ch)) as [exp|] eqn:Hd; [|discriminate].
  assert (Hins : forall k, (<[slice 0 63 ch := mkEntry (slice 0 56 (slice 63 127 ch))
                   (decode_created t (slice 63 127 ch)) exp]> es) !! k =
                 option_map (load_entry t) ((<[slice 0 63 ch := slice 63 127 ch]> vs) !! k)).
  { intros k. destruct (decide (k = slice 0 63 ch)) as [->|Hne].
    - rewrite !lookup_insert_eq. simpl. unfold load_entry. by rewrite Hd.
    - rewrite !lookup_insert_ne by congruence. apply Hes. }
  destruct exp as [x|]; [destruct (x <=? t)|]; cbn [fst snd]; intros [= <- <-]; done.
Qed.

Lemma load_chunks_entries (t : Z) (cs : list (list Byte.byte)) (vs vs' : gmap key raw)
    (es es' : gmap key CacheEntry) :
  (forall k, es !! k = option_map (load_entry t) (vs !! k)) ->
  load_chunks t (vs, es) cs = Some (vs', es') ->
  forall k, es' !! k = option_map (load_entry t) (vs' !! k).
Proof.
  revert vs es. induction cs as [|ch cs IH]; intros vs es Hes; cbn [load_chunks].
  - by intros [= <- <-].
  - destruct (load_chunk t (vs, es) ch) as [[vs1 es1]|] eqn:Hc; [|discriminate].
    apply IH. by apply (load_chunk_entries t vs vs1 es es1 ch).
Qed.

(** [load] of a non-empty file made of well-sized records followed by fewer
    than 127 bytes: the trailing bytes are ignored ([chunks_exact]), the
    previous contents of the maps are dropped, the raw-value map becomes the
    records with a non-zero key that are not expired at load time (a later
    record for the same key wins), the entry map holds exactly the same keys,
    each with the entry decoded from its raw value, the dirty flag and the
    counter are kept and one sweep job is scheduled. *)
Theorem load_decodes_records (t : Z) (l : list (key * raw)) (tail : list Byte.byte)
    (c c' : Cache) :
  Forall (fun kv => length kv.1 = 63%nat /\ length kv.2 = 64%nat) l ->
  (length tail < 127)%nat ->
  concat (map encode_record l) ++ tail <> [] ->
  load t (set_file (concat (map encode_record l) ++ tail) c) = Some c' ->
  vals c' = load_vals t l ∅ /\
  (forall k, entries c' !! k = option_map (load_entry t) (vals c' !! k)) /\
  save_flag c' = save_flag c /\
  ops_since_invalidation c' = ops_since_invalidation c /\
  pending_sweeps c' = S (pending_sweeps c).
Proof.
  intros Hl Ht Hne. unfold load. cbn [cache_file set_file].
  destruct (concat (map encode_record l) ++ tail) as [|b f] eqn:Ef; [done|].
  rewrite <- Ef, (chunks_exact_concat_tail _ _ (records_127 l Hl) Ht).
  destruct (load_chunks t (∅, ∅) (map encode_record l)) as [[vs es]|] eqn:Hc; [|discriminate].
  intros [= <-]. simpl. split; [by apply (load_chunks_vals t l ∅ ∅ vs es)|].
  split; [|done].
  apply (load_chunks_entries t (map encode_record l) ∅ vs ∅ es); [|exact Hc].
  intros k. by rewrite !lookup_empty.
Qed.

(** A file of three records (one with an all-zero key, one expired at 2000)
    and three trailing bytes. *)
Definition recs3 : list (key * raw) :=
  [(K1, r1); (zero_key, r2); (K2, mk_raw Byte.x06 10 5)].
Definition tail3 : list Byte.byte := [Byte.x07; Byte.x07; Byte.x07].

Lemma load_decodes_records_witness :
  match load 2000 (set_file (concat (map encode_record recs3) ++ tail3) st_K12) with
  | Some c' =>
      Forall (fun kv => length kv.1 = 63%nat /\ length kv.2 = 64%nat) recs3 /\
      (length tail3 < 127)%nat /\ concat (map encode_record recs3) ++ tail3 <> [] /\
      vals c' = load_vals 2000 recs3 ∅ /\
      (forall k, entries c' !! k = option_map (load_entry 2000) (vals c' !! k)) /\
      save_flag c' = save_flag st_K12 /\
      ops_since_invalidation c' = ops_since_invalidation st_K12 /\
      pending_sweeps c' = S (pending_sweeps st_K12)
  | None => False
  end.
Proof.
  assert (Hl : Forall (fun kv => length kv.1 = 63%nat /\ length kv.2 = 64%nat) recs3)
    by (repeat constructor).
  assert (Ht : (length tail3 < 127)%nat) by (apply Nat.ltb_lt; reflexivity).
  assert (Hne : concat (map encode_record recs3) ++ tail3 <> []).
  { intros H. apply (f_equal (@length Byte.byte)) in H. vm_compute in H. discriminate. }
  destruct (load 2000 (set_file (concat (map encode_record recs3) ++ tail3) st_K12))
    as [c'|] eqn:Hld.
  - split; [exact Hl|]. split; [exact Ht|]. split; [exact Hne|].
    exact (load_decodes_records 2000 recs3 tail3 st_K12 c' Hl Ht Hne Hld).
  - apply (f_equal (fun o => match o with Some _ => true | None => false end)) in Hld.
    vm_compute in Hld. discriminate.
Defined.

Lemma load_chunk_overflow (t : Z) (acc : gmap key raw * gmap key CacheEntry) (k : key) (v : raw) :
  length k = 63%nat -> length v = 64%nat -> is_empty_key k = false ->
  0 < raw_offset v -> raw_timestamp v <= max_timestamp ->
  max_timestamp < raw_timestamp v + raw_offset v ->
  load_chunk t acc (k ++ v) = None.
Proof.
  intros Hk Hv He Ho H1 H2. unfold load_chunk.
  destruct (slices_of_record k v Hk Hv) as [-> ->]. rewrite He.
  unfold decode_expires, decode_created, from_timestamp.
  pose proof (be_int_range (slice 56 62 v)) as [H0 _]. fold (raw_timestamp v) in H0.
  rewrite (proj2 (Z.ltb_lt _ _) Ho).
  replace ((0 <=? raw_timestamp v) && (raw_timestamp v <=? max_timestamp)) with true
    by (symmetry; apply andb_true_iff; split; apply Z.leb_le; lia).
  unfold add_seconds. replace (raw_timestamp v + raw_offset v <=? max_timestamp) with false
    by (symmetry; apply Z.leb_gt; lia).
  done.
Qed.

(** [load] panics on a file holding a record with a non-zero key whose
    timestamp field is representable but whose timestamp plus offset is
    past chrono's last second ([created_at + TimeDelta] overflows), wherever
    the record is in the file. *)
Theorem load_panics_on_overflowing_record (t : Z) (l : list (key * raw)) (tail : list Byte.byte)
    (c : Cache) (k : key) (v : raw) :
  Forall (fun kv => length kv.1 = 63%nat /\ length kv.2 = 64%nat) l ->
  (length tail < 127)%nat -> (k, v) ∈ l ->
  is_empty_key k = false -> 0 < raw_offset v -> raw_timestamp v <= max_timestamp ->
  max_timestamp < raw_timestamp v + raw_offset v ->
  load t (set_file (concat (map encode_record l) ++ tail) c) = None.
Proof.
  intros Hl Ht Hin He Ho H1 H2.
  assert (Hne : concat (map encode_record l) ++ tail <> []).
  { intros H. apply (f_equal (@length Byte.byte)) in H. rewrite length_app in H.
    apply list_elem_of_split in Hin as (l1 & l2 & ->).
    rewrite map_app, concat_app, length_app in H. simpl in H.
    unfold encode_record in H. simpl in H. rewrite !length_app in H.
    pose proof (proj1 (Forall_forall _ _) Hl (k, v)) as Hkv.
    destruct Hkv as [Hk Hv]; [apply list_elem_of_In, in_or_app; right; left; done|].
    simpl in Hk, Hv. lia. }
  unfold load. cbn [cache_file set_file].
  destruct (concat (map encode_record l) ++ tail) as [|b f] eqn:Ef; [done|].
  rewrite <- Ef, (chunks_exact_concat_tail _ _ (records_127 l Hl) Ht).
  assert (Hn : forall acc, load_chunks t acc (map encode_record l) = None).
  { clear Ef Hne. induction Hl as [|[k0 v0] l0 [Hk0 Hv0] Hl0 IH]; intros acc;
      [by apply not_elem_of_nil in Hin|].
    cbn [map load_chunks]. unfold encode_record at 1. cbn [fst snd].
    apply elem_of_cons in Hin as [[= -> ->]|Hin].
    - by rewrite load_chunk_overflow.
    - destruct (load_chunk t acc (k0 ++ v0)); [by apply IH|done]. }
  by rewrite Hn.
Qed.

Definition recs_max : list (key * raw) := [(K2, r2); (K1, r_max)].

Lemma load_panics_on_overflowing_record_witness :
  Forall (fun kv => length kv.1 = 63%nat /\ length kv.2 = 64%nat) recs_max /\
  (length tail3 < 127)%nat /\ (K1, r_max) ∈ recs_max /\ is_empty_key K1 = false /\
  0 < raw_offset r_max /\ raw_timestamp r_max <= max_timestamp /\
  max_timestamp < raw_timestamp r_max + raw_offset r_max /\
  load 1000 (set_file (concat (map encode_record recs_max) ++ tail3) cache_new) = None.
Proof.
  assert (Hl : Forall (fun kv => length kv.1 = 63%nat /\ length kv.2 = 64%nat) recs_max)
    by (repeat constructor).
  assert (Ht : (length tail3 < 127)%nat) by (apply Nat.ltb_lt; reflexivity).
  assert (Hin : (K1, r_max) ∈ recs_max) by (apply elem_of_cons; right; apply list_elem_of_singleton; reflexivity).
  assert (He : is_empty_key K1 = false) by reflexivity.
  assert (Ho : 0 < raw_offset r_max) by (vm_compute; reflexivity).
  assert (H1 : raw_timestamp r_max <= max_timestamp) by (vm_compute; discriminate).
  assert (H2 : max_timestamp < raw_timestamp r_max + raw_offset r_max) by (vm_compute; reflexivity).
  do 7 (split; [assumption|]).
  exact (load_panics_on_overflowing_record 1000 recs_max tail3 cache_new K1 r_max
           Hl Ht Hin He Ho H1 H2).
Defined.



(** [store_wf] as a test. *)
Definition store_wf_b (c : Cache) : bool :=
  forallb (fun kv => Nat.eqb (length kv.1) 63 && Nat.eqb (length kv.2) 64)
    (map_to_list (vals c)).

Lemma store_wf_b_sound (c : Cache) : store_wf_b c = true -> store_wf c.
Proof.
  unfold store_wf_b, store_wf. rewrite forallb_forall. intros H k v Hkv.
  apply elem_of_map_to_list, list_elem_of_In, H in Hkv.
  apply andb_true_iff in Hkv as [H1 H2]. by apply Nat.eqb_eq in H1, H2.
Qed.

(** A shutdown by signal ([handle_close]) whose save is written in full,
    followed by a start ([Cache::new] and [load]) at a time no earlier than
    the save: [should_exit] is set, and the new store holds exactly the
    pairs of the old one with a non-zero key that are not expired at the
    start. *)
Theorem shutdown_then_startup (e : env) (tl : Z) (c : Cache) (buf : list Byte.byte) (n : nat)
    (b : bool) (c' c2 : Cache) :
  store_wf c -> now e <= tl ->
  create_ok (io e) = true -> write_res (io e) = Some n ->
  serialize (now e) (map_to_list (vals c)) = Some buf -> (length buf <= n)%nat ->
  handle_close e c = Some (b, c') -> startup tl (cache_file c') = Some c2 ->
  b = true /\
  forall k, vals c2 !! k =
    match vals c !! k with
    | Some v => if load_accepts tl k v then Some v else None
    | None => None
    end.
Proof.
  intros Hwf Hle Hc Hw Hs Hn. unfold handle_close, clean_up. rewrite Hc, Hs, Hw. cbn [negb].
  assert (Hf : forall c1, cache_file (set_file (firstn n buf) c1) = buf)
    by (intros; simpl; by apply firstn_all2).
  destruct (flush_ok (io e)); intros [= <- <-]; unfold startup;
    [cbn [cache_file set_save_flag]|]; rewrite Hf; intros Hl; split; try done;
    by apply (save_load_roundtrip (now e) tl c buf c2).
Qed.

Lemma shutdown_then_startup_witness :
  match serialize 1000 (map_to_list (vals st_K12)) with
  | Some buf =>
      match handle_close (mkEnv 1000 io_full) st_K12 with
      | Some (b, c') =>
          match startup 2000 (cache_file c') with
          | Some c2 =>
              store_wf st_K12 /\ (length buf <= 4096)%nat /\ b = true /\
              forall k, vals c2 !! k =
                match vals st_K12 !! k with
                | Some v => if load_accepts 2000 k v then Some v else None
                | None => None
                end
          | None => False
          end
      | None => False
      end
  | None => False
  end.
Proof.
  assert (Hwf : store_wf st_K12) by (apply store_wf_b_sound; vm_compute; reflexivity).
  assert (Hle : now (mkEnv 1000 io_full) <= 2000) by (vm_compute; discriminate).
  assert (Hc : create_ok (io (mkEnv 1000 io_full)) = true) by reflexivity.
  assert (Hw : write_res (io (mkEnv 1000 io_full)) = Some 4096%nat) by reflexivity.
  assert (Hs0 : option_map (fun l => Nat.leb (@length Byte.byte l) 4096)
                  (serialize 1000 (map_to_list (vals st_K12))) = Some true)
    by (vm_compute; reflexivity).
  assert (Hh0 : match handle_close (mkEnv 1000 io_full) st_K12 with
                | Some (_, c') =>
                    match startup 2000 (cache_file c') with Some _ => true | None => false end
                | None => false
                end = true) by (vm_compute; reflexivity).
  destruct (serialize 1000 (map_to_list (vals st_K12))) as [buf|] eqn:Hs; [|discriminate Hs0].
  injection Hs0 as Hn. apply Nat.leb_le in Hn.
  destruct (handle_close (mkEnv 1000 io_full) st_K12) as [[b c']|] eqn:Hh; [|discriminate Hh0].
  destruct (startup 2000 (cache_file c')) as [c2|] eqn:Hst; [|discriminate Hh0].
  split; [exact Hwf|]. split; [exact Hn|].
  exact (shutdown_then_startup (mkEnv 1000 io_full) 2000 st_K12 buf 4096 b c' c2
           Hwf Hle Hc Hw Hs Hn Hh Hst).
Defined.

(** ** The expiry scan of [tasks.rs] *)

(** [tasks::invalidate_cache] when every clock reading of the scan lies in
    [[lo, hi]]: it only removes keys (never adds or changes a value); a key
    whose [start_time + expire_time] is below [lo] is removed; a key whose
    [start_time + expire_time] is at least [hi] is kept. The result does not
    depend on the iteration order for the keys outside that window. *)
Theorem tasks_invalidate_cache_bounds (clock : nat -> Z) (lo hi : Z) (kv : gmap key raw) (k : key) :
  (forall i, lo <= clock i <= hi) ->
  (kv !! k = None -> tasks_invalidate_cache clock kv !! k = None) /\
  (forall v, kv !! k = Some v ->
     (tasks_invalidate_cache clock kv !! k = None \/
      tasks_invalidate_cache clock kv !! k = Some v) /\
     (tasks_expire_timestamp v < lo -> tasks_invalidate_cache clock kv !! k = None) /\
     (hi <= tasks_expire_timestamp v -> tasks_invalidate_cache clock kv !! k = Some v)).
Proof.
  intros Hc. split.
  { intros Hn. unfold tasks_invalidate_cache. rewrite fold_delete_lookup, Hn.
    by destruct (decide _). }
  intros v Hv. split.
  { unfold tasks_invalidate_cache. rewrite fold_delete_lookup, Hv. destruct (decide _); auto. }
  split.
  - intros Hx. apply (tasks_invalidate_removes clock lo kv k v); [intros j; apply Hc|done|done].
  - intros Hx. unfold tasks_invalidate_cache. rewrite fold_delete_lookup, Hv.
    destruct (decide _) as [Hin|]; [|done]. exfalso.
    destruct (tasks_scan_in clock 0 _ k Hin) as (v' & j & Hv' & Hj).
    apply elem_of_map_to_list in Hv'. rewrite Hv in Hv'. injection Hv' as <-.
    specialize (Hc j). lia.
Qed.

Definition clock_1500 (i : nat) : Z := 1500 + Z.of_nat (i mod 3).

(** A map with a key whose value expires (for the scan) at 5000 and a key
    whose value expired at 0. *)
Definition v_late : raw := mk_raw Byte.x01 5000 0.
Definition kv_scan : gmap key raw := <[K1 := v_late]> (<[K2 := r2]> ∅).

Lemma tasks_invalidate_cache_bounds_witness :
  (forall i, 1500 <= clock_1500 i <= 1502) /\
  kv_scan !! K1 = Some v_late /\ 1502 <= tasks_expire_timestamp v_late /\
  tasks_invalidate_cache clock_1500 kv_scan !! K1 = Some v_late /\
  kv_scan !! K2 = Some r2 /\ tasks_expire_timestamp r2 < 1500 /\
  tasks_invalidate_cache clock_1500 kv_scan !! K2 = None.
Proof.
  assert (Hc : forall i, 1500 <= clock_1500 i <= 1502).
  { intros i. unfold clock_1500. pose proof (Nat.mod_upper_bound i 3). lia. }
  assert (H1 : kv_scan !! K1 = Some v_late) by (vm_compute; reflexivity).
  assert (H2 : kv_scan !! K2 = Some r2) by (vm_compute; reflexivity).
  assert (X1 : 1502 <= tasks_expire_timestamp v_late) by (vm_compute; discriminate).
  assert (X2 : tasks_expire_timestamp r2 < 1500) by (vm_compute; reflexivity).
  destruct (tasks_invalidate_cache_bounds clock_1500 1500 1502 kv_scan K1 Hc) as [_ HK1].
  destruct (tasks_invalidate_cache_bounds clock_1500 1500 1502 kv_scan K2 Hc) as [_ HK2].
  destruct (HK1 v_late H1) as (_ & _ & Hkeep).
  destruct (HK2 r2 H2) as (_ & Hrem & _).
  split; [exact Hc|]. split; [exact H1|]. split; [exact X1|]. split; [exact (Hkeep X1)|].
  split; [exact H2|]. split; [exact X2|]. exact (Hrem X2).
Defined.

(** A value inserted through the dispatcher with an offset of 0 gets no
    expiry: the sweeps of [main.rs] keep it whatever their times, while
    [tasks::invalidate_cache] reads the same offset as [expire_time = 0] and
    removes the key as soon as every clock reading of its scan is past the
    value's own 6-byte timestamp field. *)
Theorem zero_offset_kept_by_sweeps_removed_by_tasks (e : env) (input : list Byte.byte) (c : Cache)
    (out : list Byte.byte) (c' : Cache) (ts : list Z) (clock : nat -> Z) :
  now e + 65535 <= max_timestamp -> opcode input = b_I ->
  is_empty_key (key_slice input) = false -> raw_offset (value_slice input) = 0 ->
  (forall i, raw_timestamp (value_slice input) < clock i) ->
  handle_in e input c = Some (out, c') ->
  vals (sweeps ts c') !! key_slice input = Some (value_slice input) /\
  tasks_invalidate_cache clock (vals c') !! key_slice input = None.
Proof.
  intros Hnow Hop Hk Ho Hclk. rewrite handle_in_insert by done.
  rewrite insert_path_spec by done. intros [= <- <-].
  assert (Hx : tasks_expire_timestamp (value_slice input) = raw_timestamp (value_slice input)).
  { unfold tasks_expire_timestamp, be_i16. fold (raw_offset (value_slice input)).
    rewrite Ho. simpl. lia. }
  split.
  - apply sweeps_keep_never with (en := mkEntry (slice 0 56 (value_slice input)) (now e) None);
      simpl; [by rewrite lookup_insert_eq| |done].
    rewrite Ho. simpl. by rewrite lookup_insert_eq.
  - cbn [vals set_save_flag set_vals_entries].
    apply (tasks_invalidate_removes clock (raw_timestamp (value_slice input) + 1) _ _
             (value_slice input)); [|by rewrite lookup_insert_eq|lia].
    intros j. specialize (Hclk j). lia.
Qed.

(** An insert frame with an offset of 0 and timestamp field 900. *)
Definition frame_zero : list Byte.byte := frame b_I K1 (mk_raw Byte.x03 900 0).

Lemma zero_offset_kept_by_sweeps_removed_by_tasks_witness :
  match handle_in (mkEnv 1000 io_full) frame_zero cache_new with
  | Some (out, c') =>
      now (mkEnv 1000 io_full) + 65535 <= max_timestamp /\
      raw_offset (value_slice frame_zero) = 0 /\
      (vals (sweeps [2000; 100000] c') !! (key_slice frame_zero) =
         Some (value_slice frame_zero)) /\
      (tasks_invalidate_cache clock_1500 (vals c') !! (key_slice frame_zero) = None)
  | None => False
  end.
Proof.
  assert (Hnow : now (mkEnv 1000 io_full) + 65535 <= max_timestamp) by (vm_compute; discriminate).
  assert (Hop : opcode frame_zero = b_I) by reflexivity.
  assert (Hk : is_empty_key (key_slice frame_zero) = false) by (vm_compute; reflexivity).
  assert (Ho : raw_offset (value_slice frame_zero) = 0) by (vm_compute; reflexivity).
  assert (Hclk : forall i, raw_timestamp (value_slice frame_zero) < clock_1500 i).
  { intros i. assert (Ht : raw_timestamp (value_slice frame_zero) = 900) by (vm_compute; reflexivity).
    rewrite Ht. unfold clock_1500. lia. }
  assert (Hh0 : match handle_in (mkEnv 1000 io_full) frame_zero cache_new with
                | Some _ => true | None => false end = true) by (vm_compute; reflexivity).
  destruct (handle_in (mkEnv 1000 io_full) frame_zero cache_new) as [[out c']|] eqn:Hh;
    [|discriminate Hh0].
  split; [exact Hnow|]. split; [exact Ho|].
  exact (zero_offset_kept_by_sweeps_removed_by_tasks (mkEnv 1000 io_full) frame_zero cache_new out c'
           [2000; 100000] clock_1500 Hnow Hop Hk Ho Hclk Hh).
Defined.

Lemma sweeps_keep_unexpired (ts : list Z) (c : Cache) (k : key) (v : raw) (en : CacheEntry) :
  vals c !! k = Some v -> entries c !! k = Some en ->
  Forall (fun t => entry_expired t en = false) ts ->
  vals (sweeps ts c) !! k = Some v /\ entries (sweeps ts c) !! k = Some en.
Proof.
  unfold sweeps. intros Hv He Hts. revert c Hv He.
  induction Hts as [|t ts Ht _ IH]; intros c Hv He; cbn [fold_left]; [done|].
  apply IH; destruct (sweep_lookup t c k) as [E1 E2]; rewrite ?E1, ?E2, He, Ht; done.
Qed.

(** An offset of 32768 or more (a lifetime of about 9.1 to 18.2 hours) is
    read by [tasks::invalidate_cache] as a negative [i16]: a value inserted
    through the dispatcher with such an offset and a timestamp field no later
    than the insertion time is kept by the sweeps of [main.rs] at every time
    before [now + offset], but is removed by the tasks thread at any clock
    reading from the insertion time on. *)
Theorem high_offset_removed_early_by_tasks (e : env) (input : list Byte.byte) (c : Cache)
    (out : list Byte.byte) (c' : Cache) (ts : list Z) (clock : nat -> Z) :
  now e + 65535 <= max_timestamp -> opcode input = b_I ->
  is_empty_key (key_slice input) = false -> 32768 <= raw_offset (value_slice input) ->
  raw_timestamp (value_slice input) <= now e ->
  Forall (fun t => t < now e + raw_offset (value_slice input)) ts ->
  (forall i, now e <= clock i) ->
  handle_in e input c = Some (out, c') ->
  vals (sweeps ts c') !! key_slice input = Some (value_slice input) /\
  tasks_invalidate_cache clock (vals c') !! key_slice input = None.
Proof.
  intros Hnow Hop Hk Ho Hts Hsw Hclk. rewrite handle_in_insert by done.
  rewrite insert_path_spec by done. intros [= <- <-].
  pose proof (raw_offset_range (value_slice input)) as Hr.
  assert (Hx : tasks_expire_timestamp (value_slice input) =
               raw_timestamp (value_slice input) + raw_offset (value_slice input) - 65536).
  { unfold tasks_expire_timestamp, be_i16. fold (raw_offset (value_slice input)).
    destruct (Z.ltb_spec (raw_offset (value_slice input)) 32768); lia. }
  replace (0 <? raw_offset (value_slice input)) with true by (symmetry; apply Z.ltb_lt; lia).
  split.
  - apply sweeps_keep_unexpired
      with (en := mkEntry (slice 0 56 (value_slice input)) (now e)
                    (Some (now e + raw_offset (value_slice input))));
      cbn [vals entries set_save_flag set_vals_entries]; [by rewrite lookup_insert_eq
      |by rewrite lookup_insert_eq|].
    eapply Forall_impl; [exact Hsw|]. intros t Ht. unfold entry_expired. cbn [expires_at].
    apply Z.leb_gt. cbn beta in Ht. lia.
  - cbn [vals set_save_flag set_vals_entries].
    apply (tasks_invalidate_removes clock (now e) _ _ (value_slice input));
      [exact Hclk|by rewrite lookup_insert_eq|lia].
Qed.

(** An insert frame with offset 40000 and timestamp field 900. *)
Definition frame_high : list Byte.byte := frame b_I K1 (mk_raw Byte.x03 900 40000).

Lemma high_offset_removed_early_by_tasks_witness :
  match handle_in (mkEnv 1000 io_full) frame_high cache_new with
  | Some (out, c') =>
      32768 <= raw_offset (value_slice frame_high) /\
      (vals (sweeps [2000; 30000] c') !! (key_slice frame_high) =
         Some (value_slice frame_high)) /\
      (tasks_invalidate_cache clock_1500 (vals c') !! (key_slice frame_high) = None)
  | None => False
  end.
Proof.
  assert (Hnow : now (mkEnv 1000 io_full) + 65535 <= max_timestamp) by (vm_compute; discriminate).
  assert (Hop : opcode frame_high = b_I) by reflexivity.
  assert (Hk : is_empty_key (key_slice frame_high) = false) by (vm_compute; reflexivity).
  assert (Ho : 32768 <= raw_offset (value_slice frame_high)) by (vm_compute; discriminate).
  assert (Hts : raw_timestamp (value_slice frame_high) <= now (mkEnv 1000 io_full))
    by (vm_compute; discriminate).
  assert (Hsw : Forall (fun t => t < now (mkEnv 1000 io_full) + raw_offset (value_slice frame_high))
                  [2000; 30000]) by (repeat constructor; vm_compute; reflexivity).
  assert (Hclk : forall i, now (mkEnv 1000 io_full) <= clock_1500 i).
  { intros i. unfold clock_1500. cbn [now]. lia. }
  assert (Hh0 : match handle_in (mkEnv 1000 io_full) frame_high cache_new with
                | Some _ => true | None => false end = true) by (vm_compute; reflexivity).
  destruct (handle_in (mkEnv 1000 io_full) frame_high cache_new) as [[out c']|] eqn:Hh;
    [|discriminate Hh0].
  split; [exact Ho|].
  exact (high_offset_removed_early_by_tasks (mkEnv 1000 io_full) frame_high cache_new out c'
           [2000; 30000] clock_1500 Hnow Hop Hk Ho Hts Hsw Hclk Hh).
Defined.

(** ** The codec of [utils.rs] *)

Lemma read_line_key (m : gmap key raw) (p : list Byte.byte) (b : bool) (x : Byte.byte) :
  length p <> 63%nat -> read_line (mkRl m p [] b) x = Some (mkRl m (p ++ [x]) [] true).
Proof.
  intros Hp. unfold read_line. cbn [rl_key rl_value rl_is_key rl_map].
  rewrite (proj2 (Nat.eqb_neq _ _) Hp).
  destruct b; cbn [negb length Nat.eqb]; by rewrite andb_false_r.
Qed.

Lemma read_line_first_value (m : gmap key raw) (k : list Byte.byte) (x : Byte.byte) :
  length k = 63%nat ->
  read_line (mkRl m k [] true) x = if utf8_valid k then Some (mkRl m k [x] false) else None.
Proof.
  intros Hk. unfold read_line. cbn [rl_key rl_value rl_is_key rl_map].
  rewrite Hk. cbn [Nat.eqb]. destruct (utf8_valid k); [|done].
  cbn [app length Nat.eqb]. by rewrite andb_false_r.
Qed.

Lemma read_line_value (m : gmap key raw) (k q : list Byte.byte) (x : Byte.byte) :
  length k = 63%nat ->
  read_line (mkRl m k q false) x =
    if Nat.eqb (length q) 63 then Some (mkRl (<[k := q ++ [x]]> m) [] [] false)
    else Some (mkRl m k (q ++ [x]) false).
Proof.
  intros Hk. unfold read_line. cbn [rl_key rl_value rl_is_key rl_map].
  rewrite Hk. cbn [Nat.eqb andb]. rewrite length_app. cbn [length].
  destruct (Nat.eqb_spec (length q) 63) as [Hq|Hq].
  - rewrite Hq. cbn [Nat.add Nat.eqb].
    rewrite !firstn_all2 by (rewrite ?length_app; simpl; lia). by rewrite Hk.
  - replace (Nat.eqb (length q + 1) 64) with false
      by (symmetry; apply Nat.eqb_neq; lia). by rewrite Hk.
Qed.

Lemma read_key_phase (m : gmap key raw) (p s rest : list Byte.byte) (b : bool) (x : Byte.byte) :
  (length p + length s = 62)%nat ->
  read_lines (mkRl m p [] b) (s ++ x :: rest) = read_lines (mkRl m (p ++ s ++ [x]) [] true) rest.
Proof.
  revert p b. induction s as [|y s IH]; intros p b Hl; cbn [app read_lines].
  - simpl in Hl. by rewrite read_line_key by lia.
  - simpl in Hl. rewrite read_line_key by lia.
    rewrite IH by (rewrite length_app; simpl; lia). by rewrite <- app_assoc.
Qed.

Lemma read_value_phase (m : gmap key raw) (k q s rest : list Byte.byte) (x : Byte.byte) :
  length k = 63%nat -> (length q + length s = 63)%nat ->
  read_lines (mkRl m k q false) (s ++ x :: rest) =
  read_lines (mkRl (<[k := q ++ s ++ [x]]> m) [] [] false) rest.
Proof.
  intros Hk. revert q. induction s as [|y s IH]; intros q Hl; cbn [app read_lines].
  - simpl in Hl. rewrite read_line_value by done.
    by rewrite (proj2 (Nat.eqb_eq _ _) (eq_trans (eq_sym (Nat.add_0_r _)) Hl)).
  - simpl in Hl. rewrite read_line_value by done.
    rewrite (proj2 (Nat.eqb_neq (length q) 63)) by lia.
    rewrite IH by (rewrite length_app; simpl; lia). by rewrite <- app_assoc.
Qed.

(** One record [key ++ value] read from the start of a key. *)
Lemma read_record (m : gmap key raw) (b : bool) (k v rest : list Byte.byte) :
  length k = 63%nat -> length v = 64%nat ->
  read_lines (mkRl m [] [] b) (k ++ v ++ rest) =
    if utf8_valid k then read_lines (mkRl (<[k := v]> m) [] [] false) rest else None.
Proof.
  intros Hk Hv.
  destruct k as [|x0 k'] using rev_ind; [discriminate|]. clear IHk'.
  rewrite length_app in Hk. simpl in Hk.
  rewrite <- app_assoc. cbn [app].
  rewrite (read_key_phase m [] k' (v ++ rest) b x0) by (simpl; lia). cbn [app].
  destruct v as [|y0 v']; [discriminate|]. simpl in Hv.
  destruct v' as [|x1 s] using rev_ind; [simpl in Hv; lia|]. clear IHs.
  rewrite length_app in Hv. simpl in Hv.
  cbn [app read_lines]. rewrite read_line_first_value by (rewrite length_app; simpl; lia).
  destruct (utf8_valid (k' ++ [x0])); [|done].
  rewrite <- app_assoc. cbn [app].
  rewrite (read_value_phase m (k' ++ [x0]) [y0] s rest x1)
    by (rewrite ?length_app; simpl; lia).
  done.
Qed.

Lemma read_records (m : gmap key raw) (b : bool) (l : list (key * raw)) :
  Forall (fun kv => length kv.1 = 63%nat /\ length kv.2 = 64%nat) l ->
  option_map rl_map (read_lines (mkRl m [] [] b) (create_byte_lines l)) =
    if forallb (fun kv => utf8_valid kv.1) l
    then Some (fold_left (fun m kv => <[kv.1 := kv.2]> m) l m) else None.
Proof.
  intros Hl. revert m b. induction Hl as [|[k v] l [Hk Hv] _ IH]; intros m b; [done|].
  cbn [create_byte_lines forallb fold_left fst snd] in *.
  rewrite read_record by done. destruct (utf8_valid k); [|done]. apply IH.
Qed.

Lemma fold_insert_notin (l : list (key * raw)) (m0 : gmap key raw) (k : key) :
  k ∉ l.*1 -> fold_left (fun m kv => <[kv.1 := kv.2]> m) l m0 !! k = m0 !! k.
Proof.
  revert m0. induction l as [|[k0 v0] l IH]; intros m0 Hk; [done|].
  cbn [fold_left fst snd]. rewrite IH.
  - apply lookup_insert_ne. intros ->. apply Hk. by apply elem_of_cons; left.
  - intros H. apply Hk. by apply elem_of_cons; right.
Qed.

Lemma fold_insert_in (l : list (key * raw)) (m0 : gmap key raw) (k : key) (v : raw) :
  NoDup l.*1 -> (k, v) ∈ l -> fold_left (fun m kv => <[kv.1 := kv.2]> m) l m0 !! k = Some v.
Proof.
  revert m0. induction l as [|[k0 v0] l IH]; intros m0 Hn Hin;
    [by apply not_elem_of_nil in Hin|].
  cbn [fmap list_fmap fst] in Hn. apply NoDup_cons in Hn as [Hk0 Hn].
  cbn [fold_left fst snd]. apply elem_of_cons in Hin as [[= -> ->]|Hin].
  - rewrite fold_insert_notin by done. apply lookup_insert_eq.
  - by apply IH.
Qed.

Lemma fold_insert_map_to_list (m : gmap key raw) :
  fold_left (fun m kv => <[kv.1 := kv.2]> m) (map_to_list m) ∅ = m.
Proof.
  apply map_eq. intros k. destruct (m !! k) as [v|] eqn:Hv.
  - apply fold_insert_in; [apply NoDup_fst_map_to_list|]. by apply elem_of_map_to_list.
  - rewrite fold_insert_notin; [apply lookup_empty|].
    intros (kv & -> & Hin)%list_elem_of_fmap. destruct kv as [k v]. cbn [fst].
    apply elem_of_map_to_list in Hin. simpl in *. congruence.
Qed.

(** The persistence of [utils.rs]: [handle_save] of a map of 63-byte keys
    and 64-byte values, when the file is created and the single [write]
    takes the whole buffer, leaves 127 bytes per entry; [load] of that file
    gives back exactly the map (whatever [vals] held before), unless some
    key is not valid UTF-8, in which case [handle_read_lines] panics on the
    [String::from_utf8(..).unwrap()] of its debug message. *)
Theorem utils_save_load_roundtrip (io : io_env) (m m0 : gmap key raw) (file : list Byte.byte)
    (n : nat) :
  (forall k v, m !! k = Some v -> length k = 63%nat /\ length v = 64%nat) ->
  create_ok io = true -> write_res io = Some n -> (127 * size m <= n)%nat ->
  exists f, utils_handle_save io m file = Some f /\ length f = (127 * size m)%nat /\
    utils_load (Some f) m0 =
      if forallb (fun kv => utf8_valid kv.1) (map_to_list m) then Some (true, m) else None.
Proof.
  intros Hm Hc Hw Hn.
  assert (Hl : Forall (fun kv => length kv.1 = 63%nat /\ length kv.2 = 64%nat) (map_to_list m)).
  { apply Forall_forall. intros [k v] Hin%elem_of_map_to_list. by apply Hm. }
  assert (Hlen : length (create_byte_lines (map_to_list m)) = (127 * size m)%nat).
  { rewrite <- length_map_to_list. clear Hm Hn. induction Hl as [|[k v] l [Hk Hv] _ IH]; [done|].
    cbn [create_byte_lines length fst snd] in *. rewrite !length_app, IH, Hk, Hv. lia. }
  exists (create_byte_lines (map_to_list m)).
  unfold utils_handle_save, utils_clean_up. rewrite Hc, Hw. cbn [negb].
  rewrite firstn_all2 by lia. split; [done|]. split; [done|].
  unfold utils_load, handle_read_lines.
  pose proof (read_records ∅ true _ Hl) as Hr. rewrite fold_insert_map_to_list in Hr.
  destruct (read_lines _ _) as [s|]; cbn [option_map] in *;
    destruct (forallb _ _); congruence.
Qed.

(** An ASCII key, and a key whose first byte is not valid UTF-8. *)
Definition m_ascii : gmap key raw := <[K1 := r1]> (<[K2 := r2]> ∅).
Definition m_bad : gmap key raw := <[repeat Byte.xff 63 := r1]> (<[K2 := r2]> ∅).

Lemma utils_save_load_roundtrip_witness :
  (exists f, utils_handle_save io_full m_ascii [] = Some f /\ length f = (127 * size m_ascii)%nat /\
     utils_load (Some f) ∅ =
       if forallb (fun kv => utf8_valid kv.1) (map_to_list m_ascii) then Some (true, m_ascii) else None) /\
  (exists f, utils_handle_save io_full m_bad [] = Some f /\ length f = (127 * size m_bad)%nat /\
     utils_load (Some f) m_ascii =
       if forallb (fun kv => utf8_valid kv.1) (map_to_list m_bad) then Some (true, m_bad) else None).
Proof.
  assert (Hc : create_ok io_full = true) by reflexivity.
  assert (Hw : write_res io_full = Some 4096%nat) by reflexivity.
  split.
  - apply (utils_save_load_roundtrip io_full m_ascii ∅ [] 4096); [|exact Hc|exact Hw|].
    + intros k v Hkv. unfold m_ascii in Hkv.
      destruct (decide (k = K1)) as [->|]; [rewrite lookup_insert_eq in Hkv; injection Hkv as <-; split; reflexivity|].
      rewrite lookup_insert_ne in Hkv by congruence.
      destruct (decide (k = K2)) as [->|]; [rewrite lookup_insert_eq in Hkv; injection Hkv as <-; split; reflexivity|].
      rewrite lookup_insert_ne, lookup_empty in Hkv by congruence. discriminate.
    + apply Nat.leb_le. vm_compute. reflexivity.
  - apply (utils_save_load_roundtrip io_full m_bad m_ascii [] 4096); [|exact Hc|exact Hw|].
    + intros k v Hkv. unfold m_bad in Hkv.
      destruct (decide (k = repeat Byte.xff 63)) as [->|]; [rewrite lookup_insert_eq in Hkv; injection Hkv as <-; split; reflexivity|].
      rewrite lookup_insert_ne in Hkv by congruence.
      destruct (decide (k = K2)) as [->|]; [rewrite lookup_insert_eq in Hkv; injection Hkv as <-; split; reflexivity|].
      rewrite lookup_insert_ne, lookup_empty in Hkv by congruence. discriminate.
    + apply Nat.leb_le. vm_compute. reflexivity.
Defined.

(** ** [Logger::write_log] *)

(** Successive [write_log] calls on one logger: while the log file can be
    read and written, each call appends ["\n\r[LOG]"] and its message to the
    file (nothing already logged is changed) and, with [out], prints the
    message and a newline; when the file cannot be read, the first call
    panics. *)
Theorem logger_write_seq_appends (out : bool) (f : list Byte.byte) (msgs : list (list Byte.byte)) :
  logger_write_seq out (Some f) msgs =
    Some (concat (map (fun m => if out then m ++ [b_NL] else []) msgs),
          Some (f ++ concat (map (fun m => log_prefix ++ m) msgs))) /\
  (msgs <> [] -> logger_write_seq out None msgs = None).
Proof.
  split.
  - revert f. induction msgs as [|m msgs IH]; intros f; cbn [logger_write_seq map concat].
    + by rewrite app_nil_r.
    + cbn [logger_write_log]. rewrite IH. by rewrite <- !app_assoc.
  - destruct msgs; [done|]. done.
Qed.

Definition log_msgs : list (list Byte.byte) := [[Byte.x61; Byte.x62]; []; [Byte.x63]].

Lemma logger_write_seq_appends_witness :
  log_msgs <> [] /\
  logger_write_seq true (Some [Byte.x7a]) log_msgs =
    Some (concat (map (fun m => m ++ [b_NL]) log_msgs),
          Some ([Byte.x7a] ++ concat (map (fun m => log_prefix ++ m) log_msgs))) /\
  logger_write_seq true None log_msgs = None.
Proof.
  assert (Hne : log_msgs <> []) by discriminate.
  destruct (logger_write_seq_appends true [Byte.x7a] log_msgs) as [H1 H2].
  split; [exact Hne|]. split; [exact H1|]. exact (H2 Hne).
Defined.
